(** * Loki metric query splitting: range partitioner and partitioned scheduler

    Shallow embedding of
      public/app/plugins/datasource/loki/metricTimeSplit.ts
      public/app/plugins/datasource/loki/querySplitting.ts

    Timestamps are unix times in milliseconds.  The source insists that the
    arithmetic is done on integers, so a JavaScript number is a [Z] here
    (all values are assumed to stay in the safe-integer range, where the
    floating point operations used below are exact).  The one non-finite
    value that the arithmetic can produce from integers, [NaN] out of
    [x % 0], is written out with [option]. *)

From Stdlib Require Import String DecimalString.
From Stdlib Require Import ZArith Arith Bool List Lia.
Import ListNotations.

Local Open Scope Z_scope.

(** ** Outcome of a call that may throw or loop *)

Inductive outcome (A : Type) : Type :=
| Returns (a : A)
| Throws (msg : string)
| OutOfFuel.

Arguments Returns {A} a.
Arguments Throws {A} msg.
Arguments OutOfFuel {A}.

Module Partitioner.

(** JavaScript [a % b]: the remainder takes the sign of the dividend, and is
    [NaN] (here [None]) when the divisor is zero. *)
Definition js_rem (a b : Z) : option Z :=
  if b =? 0 then None else Some (Z.rem a b).

(** [expandTimeRange]: [None] stands for the pair [[NaN, NaN]] that the
    source computes when [step] is zero. *)
Definition expandTimeRange (startTime endTime step : Z) : option (Z * Z) :=
  match js_rem startTime step, js_rem endTime step with
  | Some startStepMod, Some endStepMod =>
      let newStartTime := startTime - startStepMod in
      let newEndTime :=
        if negb (endStepMod =? 0) then endTime + (step - endStepMod)
        else endTime in
      Some (newStartTime, newEndTime)
  | _, _ => None
  end.

(** The [for] loop of [getAllPoints].  It does not terminate when [step] is
    not positive and [current <= alignedEnd], hence the fuel; [None] is a
    loop that is still running when the fuel is gone. *)
Fixpoint getAllPoints_loop (fuel : nat) (current alignedEnd step : Z)
    (result : list Z) : option (list Z) :=
  match fuel with
  | O => None
  | S fuel' =>
      if current <=? alignedEnd
      then getAllPoints_loop fuel' (current + step) alignedEnd step
             (result ++ [current])
      else Some result
  end.

(** With [NaN] bounds the loop condition is false at once. *)
Definition getAllPoints (fuel : nat) (startTime endTime step : Z)
    : option (list Z) :=
  match expandTimeRange startTime endTime step with
  | Some (alignedStart, alignedEnd) =>
      getAllPoints_loop fuel alignedStart alignedEnd step []
  | None => Some []
  end.

(** lodash [chunk]: slices of [size] elements, the last one holding what is
    left; the empty array when [size < 1] or the array is empty. *)
Fixpoint chunk_from {A : Type} (n : nat) (array : list A) (size : nat)
    : list (list A) :=
  match n with
  | O => []
  | S n' =>
      match array with
      | [] => []
      | _ :: _ => firstn size array :: chunk_from n' (skipn size array) size
      end
  end.

Definition chunk {A : Type} (array : list A) (size : nat) : list (list A) :=
  if (size <? 1)%nat then [] else chunk_from (List.length array) array size.

(** [range.at(-1)] and [range[0]]. *)
Definition at_last {A : Type} (l : list A) : option A := nth_error (rev l) 0.
Definition at_first {A : Type} (l : list A) : option A := nth_error l 0.

(** [Math.max(Math.trunc(idealRangeSize / step), 1)].  For [step = 0] the
    source gets [Infinity]; [allPoints] is empty there and [chunk] of the
    empty array is empty for every size, so the value [Z.quot] gives at zero
    plays no role. *)
Definition pointsInChunk (idealRangeSize step : Z) : Z :=
  Z.max (Z.quot idealRangeSize step) 1.

Definition push_range (ranges : list (Z * Z)) (range : list Z)
    : list (Z * Z) :=
  match at_last range, at_first range with
  | Some start, Some end_ => ranges ++ [(start, end_)]
  | _, _ => ranges
  end.

Definition getRanges (fuel : nat) (startTime endTime step idealRangeSize : Z)
    : outcome (list (Z * Z)) :=
  if idealRangeSize <? 1 then Throws "idealRangeSize must be at least 1"
  else
    let pointsInChunk := pointsInChunk idealRangeSize step in
    match getAllPoints fuel startTime endTime step with
    | None => OutOfFuel
    | Some allPoints =>
        let allPoints := rev allPoints in
        let ranges :=
          fold_left push_range (chunk allPoints (Z.to_nat pointsInChunk)) [] in
        Returns (rev ranges)
    end.

(** Number of iterations of the loop of [getAllPoints] between two bounds,
    for a positive step; one more unit of fuel lets the loop see its exit. *)
Definition pointCount (step lo hi : Z) : nat :=
  if lo <=? hi then Z.to_nat ((hi - lo) / step + 1) else O.

Definition getRanges_fuel (startTime endTime step : Z) : nat :=
  match expandTimeRange startTime endTime step with
  | Some (lo, hi) => S (pointCount step lo hi)
  | None => 1%nat
  end.

(** The points [lo, lo + step, ...], [n] of them. *)
Fixpoint gridPoints (step lo : Z) (n : nat) : list Z :=
  match n with
  | O => []
  | S n' => lo :: gridPoints step (lo + step) n'
  end.


(** Number of sample points of a range. *)
Definition rangeSize (step : Z) (r : Z * Z) : Z :=
  (snd r - fst r) / step + 1.

(** ** Vocabulary of the statements about [getRanges] *)

(** Consecutive elements are [step] apart. *)
Fixpoint progression (step : Z) (l : list Z) : Prop :=
  match l with
  | [] => True
  | x :: l' =>
      match l' with
      | [] => True
      | y :: _ => y = x + step /\ progression step l'
      end
  end.

(** The range of a group of points, the group in ascending order. *)
Definition bounds (group : list Z) : Z * Z := (hd 0 group, last group 0).

(** The range that [push_range] makes from a group in descending order. *)
Definition rbounds (group : list Z) : Z * Z := (last group 0, hd 0 group).

(** Groups as [chunk] leaves them: all of [size] elements, but the last one,
    which has from one to [size] elements. *)
Fixpoint full_but_last {A : Type} (size : nat) (groups : list (list A))
    : Prop :=
  match groups with
  | [] => True
  | g :: groups' =>
      match groups' with
      | [] => (1 <= List.length g <= size)%nat
      | _ :: _ => List.length g = size /\ full_but_last size groups'
      end
  end.

(** The same with the short group first. *)
Definition full_but_first {A : Type} (size : nat) (groups : list (list A))
    : Prop :=
  match groups with
  | [] => True
  | g :: groups' =>
      (1 <= List.length g <= size)%nat
      /\ Forall (fun g' => List.length g' = size) groups'
  end.

(** Each range starts one [step] after the end of the one before it. *)
Fixpoint linked (step : Z) (ranges : list (Z * Z)) : Prop :=
  match ranges with
  | [] => True
  | r :: ranges' =>
      match ranges' with
      | [] => True
      | r' :: _ => fst r' = snd r + step /\ linked step ranges'
      end
  end.

(** [p] lies between the bounds of the range. *)
Definition inside (p : Z) (r : Z * Z) : Prop := fst r <= p <= snd r.

End Partitioner.

(** ** The scheduler of [querySplitting.ts] *)

Module Scheduler.

(** [LoadingState] of @grafana/schema. *)
Inductive LoadingState : Type :=
| NotStarted | Loading | Streaming | Done | Error.

(** A [DateTime] is kept as its unix time in milliseconds, which is what
    [dateTime(ms)] wraps and [toDate().getTime()] gives back. *)
Record TimeRange : Type := mkTimeRange {
  from : Z;
  to : Z;
  raw : Z * Z
}.

(** What an rxjs observer can be told. *)
Inductive notification (A Err : Type) : Type :=
| NextN (value : A)
| ErrorN (err : Err)
| CompleteN.

Arguments NextN {A Err} value.
Arguments ErrorN {A Err} err.
Arguments CompleteN {A Err}.

(** [Data] is the payload of a response, [Extra] the fields of a request
    that the scheduler passes through untouched. *)
Record DataQueryResponse (Data : Type) : Type := mkResponse {
  data : Data;
  state : LoadingState
}.

Arguments mkResponse {Data} data state.
Arguments data {Data} d.
Arguments state {Data} d.

Record DataQueryRequest (Extra : Type) : Type := mkRequest {
  requestId : string;
  range : option TimeRange;
  intervalMs : Z;
  others : Extra
}.

Arguments mkRequest {Extra} requestId range intervalMs others.
Arguments requestId {Extra} d.
Arguments range {Extra} d.
Arguments intervalMs {Extra} d.
Arguments others {Extra} d.

(** [response.state = s]. *)
Definition set_state {Data : Type} (s : LoadingState)
    (response : DataQueryResponse Data) : DataQueryResponse Data :=
  mkResponse (data response) s.

Definition toTimeRange (r : Z * Z) : TimeRange :=
  let '(start, end_) := r in mkTimeRange start end_ (start, end_).

(** The decimal text of [requestN] in a template string. *)
Definition string_of_nat (n : nat) : string :=
  NilEmpty.string_of_uint (Nat.to_uint n).

(** The partition that [runPartitionedQuery] computes before it builds the
    observable; the observable it returns is determined by this list, which
    the closure [next] reads.  A request without a range makes
    [request.range.from] throw. *)
Definition runPartitionedQuery {Extra : Type} (fuel : nat)
    (request : DataQueryRequest Extra) : outcome (list TimeRange) :=
  match range request with
  | None => Throws "TypeError"
  | Some r =>
      match Partitioner.getRanges fuel (from r) (to r) (intervalMs request)
              (60 * 1000) with
      | Returns ranges => Returns (map toTimeRange ranges)
      | Throws msg => Throws msg
      | OutOfFuel => OutOfFuel
      end
  end.

Section Next.

Context {Data Extra Err : Type}.

Local Abbreviation Response := (DataQueryResponse Data).
Local Abbreviation Request := (DataQueryRequest Extra).

(** The collaborators imported from [./queryUtils].  [combineResponses] is
    taken to return a new object and to leave its arguments as they are,
    so that a response which the scheduler has marked and emitted keeps
    its data and its mark when a later response is merged into it. *)
Variable combineResponses : option Response -> Response -> Response.
Variable resultLimitReached : Request -> Response -> bool.

(** [datasource.runQuery]: what the observable it returns for a request
    tells its observer at once, while it is being subscribed to, as an
    observable made with [of()] does; it ends with an error or a completion
    when the observable terminates at once.  An observable that waits for
    the backend tells nothing at once.  What an observable tells later is
    an event, below. *)
Variable runQuery : Request -> list (notification Response Err).

Variable request : Request.
Variable partition : list TimeRange.

(** What drives the scheduler once the caller has subscribed: the
    notifications that the sub-queries send later on, and the caller's
    [unsubscribe], which is taken to come between two notifications. *)
Inductive event : Type :=
| Deliver (requestN : nat) (n : notification Response Err)
| Unsubscribe.

(** [mergedResponse] is the variable of the closure; [subscriptions] are the
    sub-queries whose observable has not terminated, by their [requestN];
    [queries] logs the calls of [datasource.runQuery] in order; [emitted] is
    what the subscriber of the returned observable has been told, each
    response as it was at that moment; [closed] is the subscriber's flag,
    set by [unsubscribe], under which rxjs drops what it is told. *)
Record sched : Type := mkSched {
  mergedResponse : option Response;
  subscriptions : list nat;
  queries : list Request;
  emitted : list (notification Response Err);
  closed : bool
}.

Definition totalRequests : nat := List.length partition.

(** [partition[requestN - 1]]. *)
Definition partition_at (requestN : nat) : option TimeRange :=
  match requestN with
  | O => None
  | S i => nth_error partition i
  end.

(** [{ ...request, range, requestId }] for [requestN]. *)
Definition subRequest (requestN : nat) : Request :=
  mkRequest (requestId request ++ "_" ++ string_of_nat requestN)%string
            (partition_at requestN) (intervalMs request) (others request).

(** The call [datasource.runQuery({ ...request, range, requestId })]. *)
Definition log_query (requestN : nat) (st : sched) : sched :=
  mkSched (mergedResponse st) (subscriptions st)
          (queries st ++ [subRequest requestN]) (emitted st) (closed st).

(** The observable of [requestN] is subscribed to and has not terminated. *)
Definition open_subscription (requestN : nat) (st : sched) : sched :=
  mkSched (mergedResponse st) (subscriptions st ++ [requestN])
          (queries st) (emitted st) (closed st).

(** [mergedResponse = response]. *)
Definition set_merged (response : Response) (st : sched) : sched :=
  mkSched (Some response) (subscriptions st) (queries st) (emitted st)
          (closed st).

(** [subscriber.next(response)]. *)
Definition subscriber_next (response : Response) (st : sched) : sched :=
  if closed st then st
  else mkSched (mergedResponse st) (subscriptions st) (queries st)
               (emitted st ++ [NextN response]) (closed st).

(** A value of the sub-query [requestN]: the [map] operator merges it, and
    the [next] handler sets the state of the merged response, which is the
    very object [mergedResponse] refers to; [older] is the call
    [next(subscriber, requestN - 1)], which comes before
    [subscriber.next(response)]. *)
Definition handle (older : sched -> sched) (requestN : nat)
    (partialResponse : Response) (st : sched) : sched :=
  let merged := combineResponses (mergedResponse st) partialResponse in
  if (1 <? requestN)%nat && Bool.eqb (resultLimitReached request merged) false
  then
    let response := set_state Streaming merged in
    subscriber_next response (older (set_merged response st))
  else
    let response := set_state Done merged in
    subscriber_next response (set_merged response st).

(** Subscribing to the observable of a sub-query: the values that it tells
    at once go through the handler; if it terminates at once, with an error
    or a completion, nothing else is done, the observer having a [next]
    handler only; otherwise it stays subscribed to. *)
Fixpoint feed (handler : Response -> sched -> sched) (requestN : nat)
    (ns : list (notification Response Err)) (st : sched) : sched :=
  match ns with
  | [] => open_subscription requestN st
  | NextN partialResponse :: ns' =>
      feed handler requestN ns' (handler partialResponse st)
  | ErrorN _ :: _ => st
  | CompleteN :: _ => st
  end.

(** [next(subscriber, requestN)].  The call for [requestN - 1] is reached
    under [requestN > 1] only, so that for [requestN = 0] there is none. *)
Fixpoint next (requestN : nat) (st : sched) : sched :=
  let older :=
    match requestN with
    | O => fun st' => st'
    | S requestN' => next requestN'
    end in
  feed (handle older requestN) requestN (runQuery (subRequest requestN))
       (log_query requestN st).

Definition older (requestN : nat) : sched -> sched :=
  match requestN with
  | O => fun st' => st'
  | S requestN' => next requestN'
  end.

(** A value of the sub-query [requestN]. *)
Definition on_value (requestN : nat) (partialResponse : Response)
    (st : sched) : sched :=
  handle (older requestN) requestN partialResponse st.

Fixpoint remove_one (n : nat) (l : list nat) : list nat :=
  match l with
  | [] => []
  | x :: l' => if (x =? n)%nat then l' else x :: remove_one n l'
  end.

(** The end of a sub-query's observable.  The observer given to it has a
    [next] handler only, so neither an error nor a completion reaches the
    subscriber of the returned observable. *)
Definition on_end (requestN : nat) (st : sched) : sched :=
  mkSched (mergedResponse st) (remove_one requestN (subscriptions st))
          (queries st) (emitted st) (closed st).

Definition is_open (requestN : nat) (st : sched) : bool :=
  existsb (Nat.eqb requestN) (subscriptions st).

(** One event; [None] when it cannot occur (a notification of a sub-query
    that is not running). *)
Definition step (st : sched) (ev : event) : option sched :=
  match ev with
  | Deliver requestN n =>
      if is_open requestN st then
        match n with
        | NextN partialResponse => Some (on_value requestN partialResponse st)
        | ErrorN _ => Some (on_end requestN st)
        | CompleteN => Some (on_end requestN st)
        end
      else None
  | Unsubscribe =>
      Some (mkSched (mergedResponse st) (subscriptions st) (queries st)
                    (emitted st) true)
  end.

Fixpoint run (st : sched) (evs : list event) : option sched :=
  match evs with
  | [] => Some st
  | ev :: evs' =>
      match step st ev with
      | Some st' => run st' evs'
      | None => None
      end
  end.

(** Subscribing to the returned observable runs
    [next(subscriber, totalRequests)]. *)
Definition subscribe : sched :=
  next totalRequests (mkSched None [] [] [] false).

(** Every sub-query answers once, later on, and completes: the events of a
    run in which the sub-queries [requestN], [requestN - 1], ... deliver
    the responses of the list, in this order. *)
Fixpoint answers (requestN : nat) (responses : list Response) : list event :=
  match responses with
  | [] => []
  | r :: responses' =>
      Deliver requestN (NextN r) :: Deliver requestN CompleteN
        :: answers (requestN - 1) responses'
  end.

Definition is_value (n : notification Response Err) : bool :=
  match n with
  | NextN _ => true
  | _ => false
  end.

(** An event that brings a value of a sub-query. *)
Definition brings_value (ev : event) : bool :=
  match ev with
  | Deliver _ (NextN _) => true
  | _ => false
  end.

(** The state that each emission is marked with. *)
Definition marks (ns : list (notification Response Err))
    : list (option LoadingState) :=
  map (fun n => match n with
                | NextN response => Some (state response)
                | _ => None
                end) ns.

(** The values that [combineResponses] returns, one after the other, when
    the responses of the list arrive in this order and each of them leaves
    the merged response [Streaming]; and the merged response after them. *)
Fixpoint merges (acc : option Response) (responses : list Response)
    : list Response :=
  match responses with
  | [] => []
  | p :: responses' =>
      let merged := combineResponses acc p in
      merged :: merges (Some (set_state Streaming merged)) responses'
  end.

Fixpoint merged_after (acc : option Response) (responses : list Response)
    : option Response :=
  match responses with
  | [] => acc
  | p :: responses' =>
      merged_after (Some (set_state Streaming (combineResponses acc p)))
                   responses'
  end.

(** The sub-queries that run, and the queries, are those of partitions
    numbered within [ok], the first query that of the last partition. *)
Definition numbered (ok : nat -> Prop) (st : sched) : Prop :=
  Forall ok (subscriptions st)
  /\ Forall (fun q => exists N, ok N /\ q = subRequest N) (queries st)
  /\ exists q0 qs, queries st = q0 :: qs /\ q0 = subRequest totalRequests.

End Next.


(** [n, n - 1, ...], [k] numbers. *)
Fixpoint countdown (n k : nat) : list nat :=
  match k with
  | O => []
  | S k' => n :: countdown (n - 1) k'
  end.


End Scheduler.


(** ** Concrete collaborators, for runs on explicit inputs *)

Module Scenario.

Import Scheduler.

(** Responses that carry a list of samples; merging appends the samples of
    the new response to those of the accumulator. *)
Definition combineSamples (acc : option (DataQueryResponse (list nat)))
    (partialResponse : DataQueryResponse (list nat))
    : DataQueryResponse (list nat) :=
  match acc with
  | None => partialResponse
  | Some r => mkResponse (data r ++ data partialResponse) (state r)
  end.

(** The limit is reached at [limit] samples. *)
Definition samplesReached (limit : nat) (_ : DataQueryRequest unit)
    (response : DataQueryResponse (list nat)) : bool :=
  (limit <=? List.length (data response))%nat.

Definition noLimit (_ : DataQueryRequest unit)
    (_ : DataQueryResponse (list nat)) : bool := false.

Definition sample (n : nat) : DataQueryResponse (list nat) :=
  mkResponse [n] Done.

(** 2022-02-06T14:10:00Z in milliseconds. *)
Definition t0 : Z := 1644156600000.

Definition request : DataQueryRequest unit :=
  mkRequest "A"
    (Some (mkTimeRange (t0 + 3000) (t0 + 63000) (t0 + 3000, t0 + 63000)))
    10000 tt.

(** What [runPartitionedQuery] makes of the range of [request]: its ideal
    chunk size is one minute. *)
Definition two : list TimeRange :=
  map toTimeRange [(t0, t0 + 10000); (t0 + 20000, t0 + 70000)].

(** Requests that [runPartitionedQuery] splits into three and into five
    partitions, and these partitions. *)
Definition requestOfThree : DataQueryRequest unit :=
  mkRequest "A"
    (Some (mkTimeRange (t0 + 3000) (t0 + 163000) (t0 + 3000, t0 + 163000)))
    10000 tt.

Definition partitionOfThree : list TimeRange :=
  map toTimeRange
    [(t0, t0 + 50000); (t0 + 60000, t0 + 110000);
     (t0 + 120000, t0 + 170000)].

Definition requestOfFive : DataQueryRequest unit :=
  mkRequest "A"
    (Some (mkTimeRange (t0 + 3000) (t0 + 283000) (t0 + 3000, t0 + 283000)))
    10000 tt.

Definition partitionOfFive : list TimeRange :=
  map toTimeRange
    [(t0, t0 + 50000); (t0 + 60000, t0 + 110000);
     (t0 + 120000, t0 + 170000); (t0 + 180000, t0 + 230000);
     (t0 + 240000, t0 + 290000)].

(** A datasource that waits for the backend, and one whose observables
    answer at once, as [of()] does, each with one sample, and complete. *)
Definition later (_ : DataQueryRequest unit)
    : list (notification (DataQueryResponse (list nat)) string) := [].

Definition atOnce (_ : DataQueryRequest unit)
    : list (notification (DataQueryResponse (list nat)) string) :=
  [NextN (sample 1); CompleteN].

(** A datasource whose observables fail at once. *)
Definition failing (_ : DataQueryRequest unit)
    : list (notification (DataQueryResponse (list nat)) string) :=
  [ErrorN "timeout"%string].

End Scenario.


(** * Properties of the range partitioner *)

Module PartitionerFacts.

Import Partitioner.

(** ** Alignment *)

Lemma expandTimeRange_zero (startTime endTime : Z) :
  expandTimeRange startTime endTime 0 = None.
Proof. reflexivity. Qed.

Lemma expandTimeRange_aligned (startTime endTime step : Z) :
  step <> 0 ->
  exists lo hi,
    expandTimeRange startTime endTime step = Some (lo, hi)
    /\ (step | lo) /\ (step | hi).
Proof.
  intros Hstep. unfold expandTimeRange, js_rem.
  destruct (Z.eqb_spec step 0) as [|_]; [contradiction|].
  pose proof (Z.quot_rem' startTime step) as Hs.
  pose proof (Z.quot_rem' endTime step) as He.
  eexists _, _. split; [reflexivity|]. split.
  - exists (Z.quot startTime step); lia.
  - destruct (Z.eqb_spec (Z.rem endTime step) 0) as [Hz|Hz]; cbn [negb].
    + exists (Z.quot endTime step); lia.
    + exists (Z.quot endTime step + 1); lia.
Qed.

Lemma expandTimeRange_ordered (startTime endTime step lo hi : Z) :
  1 <= step -> startTime <= endTime ->
  expandTimeRange startTime endTime step = Some (lo, hi) ->
  lo <= hi.
Proof.
  intros Hstep Hle. unfold expandTimeRange, js_rem.
  destruct (Z.eqb_spec step 0) as [|_]; [lia|].
  intros [= <- <-].
  pose proof (Z.quot_rem' startTime step) as Hs.
  pose proof (Z.quot_rem' endTime step) as He.
  assert (Hq : Z.quot startTime step <= Z.quot endTime step)
    by (apply Z.quot_le_mono; lia).
  destruct (Z.eqb_spec (Z.rem endTime step) 0) as [Hz|Hz]; cbn [negb]; nia.
Qed.

(** ** The loop of [getAllPoints] *)

Lemma pointCount_next (step lo hi : Z) :
  1 <= step -> lo <= hi ->
  pointCount step lo hi = S (pointCount step (lo + step) hi).
Proof.
  intros Hstep Hle. unfold pointCount.
  destruct (Z.leb_spec lo hi) as [_|]; [|lia].
  destruct (Z.leb_spec (lo + step) hi) as [Hin|Hout].
  - replace (hi - lo) with ((hi - (lo + step)) + 1 * step) by lia.
    rewrite Z.div_add by lia.
    assert (0 <= (hi - (lo + step)) / step) by (apply Z.div_pos; lia).
    rewrite <- Z2Nat.inj_succ by lia. f_equal; lia.
  - rewrite Z.div_small by lia. reflexivity.
Qed.

Lemma pointCount_empty (step lo hi : Z) :
  hi < lo -> pointCount step lo hi = O.
Proof.
  intros Hlt. unfold pointCount.
  destruct (Z.leb_spec lo hi); [lia|reflexivity].
Qed.

Lemma getAllPoints_loop_sound (step hi : Z) :
  1 <= step ->
  forall fuel lo acc points,
    getAllPoints_loop fuel lo hi step acc = Some points ->
    points = acc ++ gridPoints step lo (pointCount step lo hi).
Proof.
  intros Hstep. induction fuel as [|fuel IH]; intros lo acc points; cbn.
  - discriminate.
  - destruct (Z.leb_spec lo hi) as [Hle|Hgt].
    + intros H. apply IH in H. subst points.
      rewrite (pointCount_next step lo hi) by assumption.
      cbn. now rewrite <- app_assoc.
    + intros [= <-]. rewrite pointCount_empty by assumption.
      cbn. now rewrite app_nil_r.
Qed.

Lemma getAllPoints_loop_returns (step hi : Z) :
  1 <= step ->
  forall fuel lo acc,
    (pointCount step lo hi < fuel)%nat ->
    exists points, getAllPoints_loop fuel lo hi step acc = Some points.
Proof.
  intros Hstep. induction fuel as [|fuel IH]; intros lo acc Hfuel; cbn.
  - lia.
  - destruct (Z.leb_spec lo hi) as [Hle|Hgt].
    + apply IH. rewrite (pointCount_next step lo hi) in Hfuel by assumption.
      lia.
    + eexists. reflexivity.
Qed.

(** ** Arithmetic progressions *)

Lemma gridPoints_length (step lo : Z) (n : nat) :
  List.length (gridPoints step lo n) = n.
Proof.
  revert lo. induction n as [|n IH]; intros lo; cbn; [reflexivity|].
  now rewrite IH.
Qed.

Lemma gridPoints_In (step : Z) (n : nat) :
  forall lo p,
    In p (gridPoints step lo n) <->
    exists i, (i < n)%nat /\ p = lo + Z.of_nat i * step.
Proof.
  induction n as [|n IH]; intros lo p; cbn.
  - split; [contradiction|]. intros (i & Hi & _). lia.
  - rewrite IH. split.
    + intros [<-|(i & Hi & ->)].
      * exists O. split; lia.
      * exists (S i). split; lia.
    + intros (i & Hi & ->). destruct i as [|i].
      * left. lia.
      * right. exists i. split; lia.
Qed.

Lemma gridPoints_progression (step : Z) (n : nat) :
  forall lo, progression step (gridPoints step lo n).
Proof.
  induction n as [|n IH]; intros lo; cbn; [exact I|].
  specialize (IH (lo + step)). destruct n as [|n]; cbn in *; [exact I|].
  split; [reflexivity|exact IH].
Qed.

Lemma progression_gridPoints (step : Z) (l : list Z) :
  progression step l ->
  l = gridPoints step (hd 0 l) (List.length l).
Proof.
  induction l as [|x l IH]; cbn; [reflexivity|].
  destruct l as [|y l]; [reflexivity|].
  intros [-> Hp]. f_equal. exact (IH Hp).
Qed.

Lemma gridPoints_last (step : Z) (n : nat) :
  forall lo, last (gridPoints step lo (S n)) 0 = lo + Z.of_nat n * step.
Proof.
  induction n as [|n IH]; intros lo.
  - cbn. lia.
  - change (gridPoints step lo (S (S n)))
      with (lo :: gridPoints step (lo + step) (S n)).
    change (last (lo :: gridPoints step (lo + step) (S n)) 0)
      with (last (gridPoints step (lo + step) (S n)) 0).
    rewrite IH. lia.
Qed.

Lemma progression_app (step : Z) (l1 l2 : list Z) :
  progression step (l1 ++ l2) ->
  progression step l1 /\ progression step l2
  /\ (l1 <> [] -> l2 <> [] -> hd 0 l2 = last l1 0 + step).
Proof.
  induction l1 as [|x l1 IH]; cbn [app].
  - intros H. split; [exact I|]. split; [exact H|]. congruence.
  - destruct l1 as [|y l1].
    + cbn [app]. destruct l2 as [|z l2].
      * intros _. split; [exact I|]. split; [exact I|]. congruence.
      * intros [-> H]. split; [exact I|]. split; [exact H|].
        intros _ _. reflexivity.
    + intros [-> H]. destruct (IH H) as (H1 & H2 & H3).
      split; [split; [reflexivity|exact H1]|]. split; [exact H2|].
      intros _ Hl2. apply H3; [discriminate|exact Hl2].
Qed.

(** ** lodash [chunk] *)

Lemma chunk_from_nil {A : Type} (n size : nat) :
  chunk_from n (@nil A) size = [].
Proof. destruct n; reflexivity. Qed.

Lemma chunk_from_spec {A : Type} (size : nat) :
  (1 <= size)%nat ->
  forall n (l : list A),
    (List.length l <= n)%nat ->
    concat (chunk_from n l size) = l
    /\ Forall (fun g => g <> []) (chunk_from n l size)
    /\ full_but_last size (chunk_from n l size).
Proof.
  intros Hsize. induction n as [|n IH]; intros l Hlen.
  - destruct l; [|cbn in Hlen; lia]. cbn. auto.
  - destruct l as [|x l]; [cbn; auto|].
    cbn [chunk_from concat].
    assert (Hskip : (List.length (skipn size (x :: l)) <= n)%nat).
    { rewrite length_skipn. cbn [List.length] in *. lia. }
    destruct (IH _ Hskip) as (Hc & Hne & Hfull).
    split; [rewrite Hc; apply firstn_skipn|].
    split.
    + constructor; [|exact Hne].
      destruct size; [lia|]. cbn. discriminate.
    + cbn [full_but_last].
      destruct (chunk_from n (skipn size (x :: l)) size) as [|g gs] eqn:E.
      * rewrite length_firstn. cbn [List.length]. lia.
      * split; [|exact Hfull].
        rewrite length_firstn. apply Nat.min_l.
        assert (skipn size (x :: l) <> []).
        { intros Hnil. rewrite Hnil, chunk_from_nil in E. discriminate. }
        destruct (Nat.le_gt_cases (List.length (x :: l)) size) as [Hle|Hgt].
        -- exfalso. apply H. apply skipn_all2. exact Hle.
        -- lia.
Qed.

Lemma chunk_spec {A : Type} (size : nat) (l : list A) :
  (1 <= size)%nat ->
  concat (chunk l size) = l
  /\ Forall (fun g => g <> []) (chunk l size)
  /\ full_but_last size (chunk l size).
Proof.
  intros Hsize. unfold chunk.
  destruct (Nat.ltb_spec size 1); [lia|].
  apply chunk_from_spec; [exact Hsize|apply Nat.le_refl].
Qed.

Lemma full_but_first_snoc {A : Type} (size : nat) (gs : list (list A))
    (g : list A) :
  (1 <= size)%nat -> List.length g = size ->
  full_but_first size gs -> full_but_first size (gs ++ [g]).
Proof.
  intros Hsize Hg. destruct gs as [|g0 gs]; cbn.
  - intros _. split; [lia|constructor].
  - intros [H0 Hall]. split; [exact H0|].
    apply Forall_app. split; [exact Hall|]. constructor; [exact Hg|constructor].
Qed.

Lemma full_but_last_rev {A : Type} (size : nat) (gs : list (list A)) :
  (1 <= size)%nat ->
  full_but_last size gs -> full_but_first size (rev gs).
Proof.
  intros Hsize. induction gs as [|g gs IH]; cbn [rev]; [intros _; exact I|].
  cbn [full_but_last]. destruct gs as [|g' gs].
  - intros H. cbn. split; [exact H|constructor].
  - intros [Hg Hfull]. apply full_but_first_snoc; [exact Hsize|exact Hg|].
    apply IH. exact Hfull.
Qed.

Lemma full_but_first_map_rev {A : Type} (size : nat) (gs : list (list A)) :
  full_but_first size gs -> full_but_first size (map (@rev A) gs).
Proof.
  destruct gs as [|g gs]; cbn; [auto|].
  intros [Hg Hall]. rewrite length_rev. split; [exact Hg|].
  rewrite Forall_map. eapply Forall_impl; [|exact Hall].
  cbn. intros g' Hg'. now rewrite length_rev.
Qed.

Lemma concat_map_rev_rev {A : Type} (gs : list (list A)) :
  concat (map (@rev A) (rev gs)) = rev (concat gs).
Proof.
  induction gs as [|g gs IH]; cbn; [reflexivity|].
  rewrite map_app, concat_app, IH, rev_app_distr. cbn.
  now rewrite app_nil_r.
Qed.

(** ** From the chunks to the ranges *)

Lemma at_last_nonempty (g : list Z) :
  g <> [] -> at_last g = Some (last g 0).
Proof.
  unfold at_last. destruct g as [|x g] using rev_ind; [congruence|].
  intros _. rewrite rev_app_distr, last_last. reflexivity.
Qed.

Lemma at_first_nonempty (g : list Z) :
  g <> [] -> at_first g = Some (hd 0 g).
Proof. destruct g; [congruence|reflexivity]. Qed.

Lemma fold_push_range (groups : list (list Z)) :
  Forall (fun g => g <> []) groups ->
  forall ranges,
    fold_left push_range groups ranges = ranges ++ map rbounds groups.
Proof.
  induction 1 as [|g groups Hg _ IH]; intros ranges; cbn.
  - now rewrite app_nil_r.
  - rewrite IH. unfold push_range.
    rewrite (at_last_nonempty g Hg), (at_first_nonempty g Hg).
    now rewrite <- app_assoc.
Qed.

Lemma rbounds_rev (g : list Z) : rbounds g = bounds (rev g).
Proof.
  unfold rbounds, bounds. destruct g as [|x g] using rev_ind; [reflexivity|].
  rewrite rev_app_distr, last_last. cbn [app rev hd].
  destruct g as [|y g]; [reflexivity|].
  cbn [app hd]. f_equal.
  change (x :: rev (y :: g)) with ([x] ++ rev (y :: g)).
  cbn [rev]. rewrite app_assoc, last_last. reflexivity.
Qed.


(** ** The shape of the result of [getRanges] *)

Lemma pointsInChunk_pos (idealRangeSize step : Z) :
  (1 <= Z.to_nat (pointsInChunk idealRangeSize step))%nat.
Proof. unfold pointsInChunk. lia. Qed.

Lemma getRanges_shape (fuel : nat) (startTime endTime step ideal : Z)
    (ranges : list (Z * Z)) :
  1 <= step ->
  getRanges fuel startTime endTime step ideal = Returns ranges ->
  exists lo hi groups,
    expandTimeRange startTime endTime step = Some (lo, hi)
    /\ (step | lo) /\ (step | hi)
    /\ ranges = map bounds groups
    /\ concat groups = gridPoints step lo (pointCount step lo hi)
    /\ Forall (fun g => g <> []) groups
    /\ full_but_first (Z.to_nat (pointsInChunk ideal step)) groups.
Proof.
  intros Hstep. unfold getRanges, getAllPoints.
  destruct (ideal <? 1); [discriminate|].
  destruct (expandTimeRange_aligned startTime endTime step)
    as (lo & hi & -> & Hlo & Hhi); [lia|].
  destruct (getAllPoints_loop fuel lo hi step []) as [points|] eqn:Hloop;
    [|discriminate].
  apply getAllPoints_loop_sound in Hloop; [|exact Hstep].
  cbn [app] in Hloop. intros [= <-].
  set (size := Z.to_nat (pointsInChunk ideal step)).
  destruct (chunk_spec size (rev points) (pointsInChunk_pos ideal step))
    as (Hconcat & Hne & Hfull).
  exists lo, hi, (map (@rev Z) (rev (chunk (rev points) size))).
  split; [reflexivity|]. split; [exact Hlo|]. split; [exact Hhi|].
  split; [|split; [|split]].
  - rewrite (fold_push_range _ Hne). cbn [app].
    rewrite <- map_rev, map_map. apply map_ext. exact rbounds_rev.
  - rewrite concat_map_rev_rev, Hconcat, rev_involutive. exact Hloop.
  - rewrite Forall_map. apply Forall_rev.
    eapply Forall_impl; [|exact Hne]. cbn. intros g Hg Hrev. apply Hg.
    rewrite <- (rev_involutive g), Hrev. reflexivity.
  - apply full_but_first_map_rev, full_but_last_rev;
      [apply pointsInChunk_pos|exact Hfull].
Qed.

Lemma getRanges_returns (fuel : nat) (startTime endTime step ideal : Z) :
  1 <= step -> 1 <= ideal ->
  (getRanges_fuel startTime endTime step <= fuel)%nat ->
  exists ranges, getRanges fuel startTime endTime step ideal = Returns ranges.
Proof.
  intros Hstep Hideal. unfold getRanges, getRanges_fuel, getAllPoints.
  destruct (Z.ltb_spec ideal 1); [lia|].
  destruct (expandTimeRange_aligned startTime endTime step)
    as (lo & hi & -> & _); [lia|].
  intros Hfuel.
  destruct (getAllPoints_loop_returns step hi Hstep fuel lo [])
    as (points & ->); [lia|].
  eexists. reflexivity.
Qed.

Lemma getRanges_throws_iff (fuel : nat) (startTime endTime step ideal : Z) :
  (exists msg, getRanges fuel startTime endTime step ideal = Throws msg)
  <-> ideal < 1.
Proof.
  unfold getRanges. destruct (Z.ltb_spec ideal 1) as [Hlt|Hge].
  - split; [intros _; exact Hlt|]. intros _. eexists. reflexivity.
  - split; [|lia]. intros (msg & H).
    destruct (getAllPoints fuel startTime endTime step); discriminate.
Qed.

(** ** Groups of an arithmetic progression *)

Lemma group_last (step : Z) (g : list Z) :
  g <> [] -> progression step g ->
  last g 0 = hd 0 g + (Z.of_nat (List.length g) - 1) * step.
Proof.
  intros Hg Hp. rewrite (progression_gridPoints step g Hp) at 1.
  destruct g as [|x g]; [congruence|].
  cbn [List.length]. rewrite gridPoints_last. lia.
Qed.



Lemma group_rangeSize (step : Z) (g : list Z) :
  1 <= step -> g <> [] -> progression step g ->
  rangeSize step (bounds g) = Z.of_nat (List.length g).
Proof.
  intros Hstep Hg Hp. unfold rangeSize. cbn [bounds fst snd].
  rewrite (group_last step g Hg Hp).
  replace (hd 0 g + (Z.of_nat (List.length g) - 1) * step - hd 0 g)
    with ((Z.of_nat (List.length g) - 1) * step) by lia.
  rewrite Z.div_mul by lia. lia.
Qed.

Lemma group_ordered (step : Z) (g : list Z) :
  1 <= step -> g <> [] -> progression step g ->
  fst (bounds g) <= snd (bounds g).
Proof.
  intros Hstep Hg Hp. cbn [bounds fst snd].
  rewrite (group_last step g Hg Hp).
  destruct g as [|x g]; [congruence|]. cbn [List.length]. nia.
Qed.


Lemma groups_progression (step : Z) (groups : list (list Z)) :
  Forall (fun g => g <> []) groups ->
  progression step (concat groups) ->
  Forall (progression step) groups /\ linked step (map bounds groups).
Proof.
  induction 1 as [|g groups Hg Hne IH]; cbn [concat map].
  - intros _. split; [constructor|exact I].
  - intros Hp. apply progression_app in Hp. destruct Hp as (H1 & H2 & H3).
    destruct (IH H2) as (Hall & Hlinked).
    split; [constructor; assumption|].
    cbn [linked]. destruct groups as [|g' groups]; [exact I|].
    cbn [map]. split; [|exact Hlinked].
    inversion Hne as [|? ? Hg' _]; subst.
    cbn [bounds fst snd]. rewrite <- H3.
    + cbn [concat]. destruct g'; [congruence|reflexivity].
    + exact Hg.
    + cbn [concat]. destruct g'; [congruence|discriminate].
Qed.



Lemma full_but_first_nth {A : Type} (size : nat) (groups : list (list A))
    (i : nat) (g : list A) :
  full_but_first size groups -> nth_error groups i = Some g ->
  (1 <= List.length g <= size)%nat
  /\ ((0 < i)%nat -> List.length g = size).
Proof.
  destruct groups as [|g0 groups]; [destruct i; discriminate|].
  intros [H0 Hall]. destruct i as [|i]; cbn.
  - intros [= <-]. split; [exact H0|lia].
  - intros Hnth. apply nth_error_In in Hnth.
    rewrite Forall_forall in Hall. specialize (Hall g Hnth). lia.
Qed.

Lemma linked_adjacent (step : Z) (ranges : list (Z * Z)) :
  linked step ranges ->
  forall i r1 r2,
    nth_error ranges i = Some r1 -> nth_error ranges (S i) = Some r2 ->
    fst r2 = snd r1 + step.
Proof.
  induction ranges as [|r ranges IH]; intros Hl i r1 r2.
  - destruct i; discriminate.
  - cbn [linked] in Hl. destruct ranges as [|r' ranges].
    + destruct i as [|[|i]]; discriminate.
    + destruct Hl as [Hr Hl]. destruct i as [|i].
      * cbn. intros [= <-] [= <-]. exact Hr.
      * cbn [nth_error]. apply (IH Hl).
Qed.

Lemma linked_apart (step : Z) (ranges : list (Z * Z)) :
  1 <= step -> linked step ranges ->
  Forall (fun r => fst r <= snd r) ranges ->
  forall d i r1 r2,
    nth_error ranges i = Some r1 ->
    nth_error ranges (i + S d) = Some r2 ->
    snd r1 < fst r2.
Proof.
  intros Hstep Hl Hwf. induction d as [|d IH]; intros i r1 r2 H1 H2.
  - replace (i + 1)%nat with (S i) in H2 by lia.
    rewrite (linked_adjacent step ranges Hl i r1 r2 H1 H2). lia.
  - destruct (nth_error ranges (i + S d)) as [r'|] eqn:Hmid.
    + specialize (IH i r1 r' H1 Hmid).
      replace (i + S (S d))%nat with (S (i + S d)) in H2 by lia.
      rewrite (linked_adjacent step ranges Hl _ r' r2 Hmid H2).
      rewrite Forall_forall in Hwf.
      specialize (Hwf r' (nth_error_In _ _ Hmid)). lia.
    + apply nth_error_None in Hmid.
      assert (nth_error ranges (i + S (S d)) = None)
        by (apply nth_error_None; lia).
      congruence.
Qed.

Lemma getRanges_bounds_nonempty (startTime endTime step ideal : Z)
    (fuel : nat) :
  1 <= step -> 1 <= ideal -> startTime <= endTime ->
  (getRanges_fuel startTime endTime step <= fuel)%nat ->
  exists ranges,
    getRanges fuel startTime endTime step ideal = Returns ranges
    /\ ranges <> [].
Proof.
  intros Hstep Hideal Hle Hfuel.
  destruct (getRanges_returns fuel startTime endTime step ideal
              Hstep Hideal Hfuel) as (ranges & Hret).
  exists ranges. split; [exact Hret|].
  destruct (getRanges_shape _ _ _ _ _ _ Hstep Hret)
    as (lo & hi & groups & Hexp & _ & _ & -> & Hconcat & _).
  pose proof (expandTimeRange_ordered _ _ _ _ _ Hstep Hle Hexp) as Hord.
  rewrite (pointCount_next step lo hi Hstep Hord) in Hconcat.
  destruct groups; discriminate.
Qed.


Lemma getAllPoints_loop_exact (step hi : Z) (fuel : nat) (lo : Z)
    (acc : list Z) :
  1 <= step -> (pointCount step lo hi < fuel)%nat ->
  getAllPoints_loop fuel lo hi step acc
  = Some (acc ++ gridPoints step lo (pointCount step lo hi)).
Proof.
  intros Hstep Hfuel.
  destruct (getAllPoints_loop_returns step hi Hstep fuel lo acc Hfuel)
    as (points & Hloop).
  rewrite Hloop. f_equal.
  exact (getAllPoints_loop_sound step hi Hstep fuel lo acc points Hloop).
Qed.

(** The scenario of the unit test, for a local time zone in which
    14:10:00 is [t0], a whole number of steps of 10 s. *)
Lemma getRanges_scenario (t0 : Z) (fuel : nat) :
  0 <= t0 -> Z.rem t0 10000 = 0 -> (9 <= fuel)%nat ->
  getRanges fuel (t0 + 3000) (t0 + 63000) 10000 35000
  = Returns [(t0, t0 + 10000); (t0 + 20000, t0 + 40000);
             (t0 + 50000, t0 + 70000)].
Proof.
  intros Hpos Hrem Hfuel.
  assert (Hexp : expandTimeRange (t0 + 3000) (t0 + 63000) 10000
                 = Some (t0, t0 + 70000)).
  { apply Z.rem_divide in Hrem; [|lia]. destruct Hrem as (q & ->).
    unfold expandTimeRange, js_rem. cbn [Z.eqb].
    rewrite !Z.rem_mod_nonneg by lia.
    assert (H1 : (q * 10000 + 3000) mod 10000 = 3000).
    { replace (q * 10000 + 3000) with (3000 + q * 10000) by lia.
      rewrite Z.mod_add by lia. reflexivity. }
    assert (H2 : (q * 10000 + 63000) mod 10000 = 3000).
    { replace (q * 10000 + 63000) with (3000 + (q + 6) * 10000) by lia.
      rewrite Z.mod_add by lia. reflexivity. }
    rewrite H1, H2. cbn [Z.eqb negb]. f_equal. f_equal; lia. }
  unfold getRanges, getAllPoints. rewrite Hexp.
  assert (Hcount : pointCount 10000 t0 (t0 + 70000) = 8%nat).
  { unfold pointCount. destruct (Z.leb_spec t0 (t0 + 70000)); [|lia].
    replace (t0 + 70000 - t0) with 70000 by lia. reflexivity. }
  rewrite getAllPoints_loop_exact by (rewrite ?Hcount; lia).
  rewrite Hcount. cbv -[Z.add].
  repeat (f_equal; try lia).
Qed.


(** ** The claims about the partitioner *)



(** C2. For [step >= 1] and [start <= end], both bounds of every range
    that [getRanges] returns are multiples of [step]; and it does return
    when [idealChunkSize >= 1]. *)
Theorem getRanges_bounds_aligned (startTime endTime step ideal : Z) :
  1 <= step -> startTime <= endTime ->
  (forall fuel ranges,
     getRanges fuel startTime endTime step ideal = Returns ranges ->
     forall r, In r ranges ->
       Z.rem (fst r) step = 0 /\ Z.rem (snd r) step = 0)
  /\ (1 <= ideal ->
      forall fuel, (getRanges_fuel startTime endTime step <= fuel)%nat ->
      exists ranges,
        getRanges fuel startTime endTime step ideal = Returns ranges
        /\ ranges <> []).
Proof.
  intros Hstep Hle.
  assert (Hsound : forall fuel ranges,
    getRanges fuel startTime endTime step ideal = Returns ranges ->
    ranges <> []
    /\ forall r, In r ranges ->
         Z.rem (fst r) step = 0 /\ Z.rem (snd r) step = 0).
  { intros fuel ranges Hret.
    destruct (getRanges_shape _ _ _ _ _ _ Hstep Hret)
      as (lo & hi & groups & Hexp & Hlo & Hhi & -> & Hconcat & Hne & _).
    assert (Hmult : forall p, In p (concat groups) -> Z.rem p step = 0).
    { intros p Hp. rewrite Hconcat in Hp. apply gridPoints_In in Hp.
      destruct Hp as (i & _ & ->). apply Z.rem_divide; [lia|].
      apply Z.divide_add_r; [exact Hlo|]. apply Z.divide_factor_r. }
    split.
    - pose proof (expandTimeRange_ordered _ _ _ _ _ Hstep Hle Hexp) as Hord.
      rewrite (pointCount_next step lo hi Hstep Hord) in Hconcat.
      destruct groups; [discriminate|discriminate].
    - intros r Hr. apply in_map_iff in Hr. destruct Hr as (g & <- & Hg).
      rewrite Forall_forall in Hne. specialize (Hne g Hg).
      cbn [bounds fst snd]. split; apply Hmult, in_concat; exists g.
      + split; [exact Hg|]. destruct g; [congruence|now left].
      + split; [exact Hg|]. destruct g as [|x g] using rev_ind;
          [congruence|]. rewrite last_last. apply in_or_app. right. now left.
  }
  split.
  - intros fuel ranges Hret. exact (proj2 (Hsound fuel ranges Hret)).
  - intros Hideal fuel Hfuel.
    destruct (getRanges_returns fuel startTime endTime step ideal
                Hstep Hideal Hfuel) as (ranges & Hret).
    exists ranges. split; [exact Hret|]. exact (proj1 (Hsound _ _ Hret)).
Qed.

Lemma getRanges_bounds_aligned_witness :
  (forall fuel ranges,
     getRanges fuel 3 63 10 35 = Returns ranges ->
     forall r, In r ranges ->
       Z.rem (fst r) 10 = 0 /\ Z.rem (snd r) 10 = 0)
  /\ (1 <= 35 ->
      forall fuel, (getRanges_fuel 3 63 10 <= fuel)%nat ->
      exists ranges,
        getRanges fuel 3 63 10 35 = Returns ranges /\ ranges <> []).
Proof.
  apply (getRanges_bounds_aligned 3 63 10 35); lia.
Defined.


(** C3, as stated, fails: the last range is not always full-sized.  For
    [start = end = 0], [step = 10] and [idealChunkSize = 35] the only
    range, which is the last one, has 1 point where
    [max(trunc(35/10), 1) = 3]. *)
Lemma getRanges_last_range_short :
  exists ranges r,
    getRanges 2 0 0 10 35 = Returns ranges
    /\ nth_error ranges (List.length ranges - 1) = Some r
    /\ rangeSize 10 r = 1
    /\ Z.max (Z.quot 35 10) 1 = 3.
Proof.
  exists [(0, 0)], (0, 0). repeat split.
Qed.

(** C3, amended.  For [step >= 1], [idealChunkSize >= 1] and
    [start <= end]: every range but the first has exactly
    [max(trunc(idealChunkSize/step), 1)] points and the first has from one
    to that many; the last range is full-sized whenever the aligned grid
    has at least that many points; and when [idealChunkSize < step] every
    range has exactly one point. *)
Theorem getRanges_full_size (startTime endTime step ideal : Z)
    (fuel : nat) :
  1 <= step -> 1 <= ideal -> startTime <= endTime ->
  (getRanges_fuel startTime endTime step <= fuel)%nat ->
  exists ranges alignedStart alignedEnd,
    getRanges fuel startTime endTime step ideal = Returns ranges
    /\ expandTimeRange startTime endTime step
       = Some (alignedStart, alignedEnd)
    /\ (forall i r, (0 < i)%nat -> nth_error ranges i = Some r ->
          rangeSize step r = Z.max (Z.quot ideal step) 1)
    /\ (forall r, nth_error ranges 0 = Some r ->
          1 <= rangeSize step r <= Z.max (Z.quot ideal step) 1)
    /\ (Z.max (Z.quot ideal step) 1
          <= Z.of_nat (pointCount step alignedStart alignedEnd) ->
        forall r, nth_error ranges (List.length ranges - 1) = Some r ->
          rangeSize step r = Z.max (Z.quot ideal step) 1)
    /\ (ideal < step ->
        forall r, In r ranges -> rangeSize step r = 1).
Proof.
  intros Hstep Hideal Hle Hfuel.
  destruct (getRanges_returns fuel startTime endTime step ideal
              Hstep Hideal Hfuel) as (ranges & Hret).
  destruct (getRanges_shape _ _ _ _ _ _ Hstep Hret)
    as (lo & hi & groups & Hexp & Hlo & Hhi & -> & Hconcat & Hne & Hfull).
  exists (map bounds groups), lo, hi.
  split; [exact Hret|]. split; [exact Hexp|].
  assert (Hprog : progression step (concat groups))
    by (rewrite Hconcat; apply gridPoints_progression).
  destruct (groups_progression step groups Hne Hprog) as (Hall & _).
  fold (pointsInChunk ideal step).
  pose proof (pointsInChunk_pos ideal step) as Hpos.
  set (size := pointsInChunk ideal step) in *.
  assert (Hsize : Z.of_nat (Z.to_nat size) = size) by lia.
  assert (Hnth : forall i r, nth_error (map bounds groups) i = Some r ->
    exists g, nth_error groups i = Some g /\ r = bounds g
      /\ rangeSize step r = Z.of_nat (List.length g)).
  { intros i r Hr. rewrite nth_error_map in Hr.
    destruct (nth_error groups i) as [g|] eqn:Hg; [|discriminate].
    injection Hr as <-. exists g. split; [reflexivity|].
    split; [reflexivity|].
    pose proof (nth_error_In _ _ Hg) as Hin.
    rewrite Forall_forall in Hne, Hall.
    apply group_rangeSize; auto. }
  split; [|split; [|split]].
  - intros i r Hi Hr. destruct (Hnth i r Hr) as (g & Hg & _ & ->).
    destruct (full_but_first_nth _ _ _ _ Hfull Hg) as [_ Heq].
    rewrite (Heq Hi). exact Hsize.
  - intros r Hr. destruct (Hnth O r Hr) as (g & Hg & _ & ->).
    destruct (full_but_first_nth _ _ _ _ Hfull Hg) as [Hb _]. lia.
  - intros Hmany r Hr. destruct (Hnth _ r Hr) as (g & Hg & _ & ->).
    rewrite length_map in Hg.
    destruct (full_but_first_nth _ _ _ _ Hfull Hg) as [Hb Heq].
    destruct groups as [|g0 [|g1 groups]].
    + discriminate.
    + cbn in Hg. injection Hg as <-. cbn [concat] in Hconcat.
      rewrite app_nil_r in Hconcat.
      pose proof (f_equal (@List.length Z) Hconcat) as Hlen.
      rewrite gridPoints_length in Hlen. lia.
    + rewrite Heq by (cbn [List.length]; lia). exact Hsize.
  - intros Hsmall r Hr. apply In_nth_error in Hr. destruct Hr as (i & Hr).
    destruct (Hnth i r Hr) as (g & Hg & _ & ->).
    destruct (full_but_first_nth _ _ _ _ Hfull Hg) as [Hb _].
    assert (size = 1).
    { unfold size, pointsInChunk. rewrite Z.quot_small by lia. lia. }
    lia.
Qed.

Lemma getRanges_full_size_witness :
  exists ranges alignedStart alignedEnd,
    getRanges 20 3 63 10 35 = Returns ranges
    /\ expandTimeRange 3 63 10 = Some (alignedStart, alignedEnd)
    /\ (forall i r, (0 < i)%nat -> nth_error ranges i = Some r ->
          rangeSize 10 r = Z.max (Z.quot 35 10) 1)
    /\ (forall r, nth_error ranges 0 = Some r ->
          1 <= rangeSize 10 r <= Z.max (Z.quot 35 10) 1)
    /\ (Z.max (Z.quot 35 10) 1
          <= Z.of_nat (pointCount 10 alignedStart alignedEnd) ->
        forall r, nth_error ranges (List.length ranges - 1) = Some r ->
          rangeSize 10 r = Z.max (Z.quot 35 10) 1)
    /\ (35 < 10 ->
        forall r, In r ranges -> rangeSize 10 r = 1).
Proof.
  apply (getRanges_full_size 3 63 10 35 20); [lia|lia|lia|].
  vm_compute. lia.
Defined.

(** C8, as stated, fails: [getRanges] checks [idealRangeSize] only.  With
    [start = 5 > end = 3] (and [step = 10], [idealRangeSize = 35]) it
    returns the range [[0, 10]], and with [step = 0] it returns the empty
    list. *)
Lemma getRanges_unchecked_arguments :
  getRanges 3 5 3 10 35 = Returns [(0, 10)]
  /\ getRanges 1 0 100 0 35 = Returns [].
Proof. split; reflexivity. Qed.

(** C8, amended.  [getRanges] throws if and only if [idealRangeSize < 1],
    whatever [step], [start] and [end] are; for [step >= 1] and
    [idealRangeSize >= 1] it returns, also when [start > end]. *)
Theorem getRanges_throws_only_on_ideal :
  (forall fuel startTime endTime step ideal,
     (exists msg, getRanges fuel startTime endTime step ideal = Throws msg)
     <-> ideal < 1)
  /\ (forall fuel startTime endTime step ideal,
        1 <= step -> 1 <= ideal ->
        (getRanges_fuel startTime endTime step <= fuel)%nat ->
        exists ranges,
          getRanges fuel startTime endTime step ideal = Returns ranges).
Proof.
  split.
  - intros. apply getRanges_throws_iff.
  - intros. now apply getRanges_returns.
Qed.

Lemma getRanges_throws_only_on_ideal_witness :
  (exists msg, getRanges 5 0 100 10 0 = Throws msg)
  /\ (exists ranges, getRanges 3 5 3 10 35 = Returns ranges).
Proof.
  destruct getRanges_throws_only_on_ideal as [Hthrows Hreturns].
  split.
  - apply Hthrows. lia.
  - apply Hreturns; [lia|lia|]. vm_compute. lia.
Defined.


(** C10. For [step >= 1], [idealChunkSize >= 1] and [start <= end],
    [getRanges] returns a non-empty list of ranges, each with
    [start <= end], in which every range starts exactly one [step] after
    the end of the range before it; so the ranges ascend strictly and no
    timestamp lies in two of them. *)
Theorem getRanges_ascending_disjoint (startTime endTime step ideal : Z)
    (fuel : nat) :
  1 <= step -> 1 <= ideal -> startTime <= endTime ->
  (getRanges_fuel startTime endTime step <= fuel)%nat ->
  exists ranges,
    getRanges fuel startTime endTime step ideal = Returns ranges
    /\ ranges <> []
    /\ (forall r, In r ranges -> fst r <= snd r)
    /\ (forall i r1 r2,
          nth_error ranges i = Some r1 ->
          nth_error ranges (S i) = Some r2 ->
          fst r2 = snd r1 + step)
    /\ (forall i j r1 r2,
          (i < j)%nat ->
          nth_error ranges i = Some r1 -> nth_error ranges j = Some r2 ->
          snd r1 < fst r2)
    /\ (forall i j r1 r2 p,
          nth_error ranges i = Some r1 -> nth_error ranges j = Some r2 ->
          inside p r1 -> inside p r2 -> i = j).
Proof.
  intros Hstep Hideal Hle Hfuel.
  destruct (getRanges_bounds_nonempty startTime endTime step ideal fuel
              Hstep Hideal Hle Hfuel) as (ranges & Hret & Hnonempty).
  destruct (getRanges_shape _ _ _ _ _ _ Hstep Hret)
    as (lo & hi & groups & Hexp & Hlo & Hhi & -> & Hconcat & Hne & Hfull).
  exists (map bounds groups). split; [exact Hret|].
  split; [exact Hnonempty|].
  assert (Hprog : progression step (concat groups))
    by (rewrite Hconcat; apply gridPoints_progression).
  destruct (groups_progression step groups Hne Hprog) as (Hall & Hlinked).
  assert (Hwf : Forall (fun r => fst r <= snd r) (map bounds groups)).
  { rewrite Forall_map. rewrite Forall_forall in *. intros g Hg.
    apply (group_ordered step); auto. }
  assert (Hapart : forall i j r1 r2, (i < j)%nat ->
    nth_error (map bounds groups) i = Some r1 ->
    nth_error (map bounds groups) j = Some r2 -> snd r1 < fst r2).
  { intros i j r1 r2 Hij H1 H2.
    replace j with (i + S (j - i - 1))%nat in H2 by lia.
    exact (linked_apart step _ Hstep Hlinked Hwf _ i r1 r2 H1 H2). }
  split; [rewrite Forall_forall in Hwf; exact Hwf|].
  split; [exact (linked_adjacent step _ Hlinked)|].
  split; [exact Hapart|].
  intros i j r1 r2 p H1 H2 [Ha Hb] [Hc Hd].
  destruct (Nat.lt_trichotomy i j) as [Hlt|[Heq|Hgt]]; [|exact Heq|].
  - pose proof (Hapart i j r1 r2 Hlt H1 H2). lia.
  - pose proof (Hapart j i r2 r1 Hgt H2 H1). lia.
Qed.

Lemma getRanges_ascending_disjoint_witness :
  exists ranges,
    getRanges 20 3 63 10 35 = Returns ranges
    /\ ranges <> []
    /\ (forall r, In r ranges -> fst r <= snd r)
    /\ (forall i r1 r2,
          nth_error ranges i = Some r1 ->
          nth_error ranges (S i) = Some r2 ->
          fst r2 = snd r1 + 10)
    /\ (forall i j r1 r2,
          (i < j)%nat ->
          nth_error ranges i = Some r1 -> nth_error ranges j = Some r2 ->
          snd r1 < fst r2)
    /\ (forall i j r1 r2 p,
          nth_error ranges i = Some r1 -> nth_error ranges j = Some r2 ->
          inside p r1 -> inside p r2 -> i = j).
Proof.
  apply (getRanges_ascending_disjoint 3 63 10 35 20); [lia|lia|lia|].
  vm_compute. lia.
Defined.


End PartitionerFacts.

(** * Properties of the scheduler *)

Module SchedulerFacts.

Import Scheduler.

Lemma countdown_nth (k : nat) :
  forall n i, (i < k)%nat -> nth_error (countdown n k) i = Some (n - i)%nat.
Proof.
  induction k as [|k IH]; intros n i Hi; [lia|].
  destruct i as [|i]; cbn.
  - f_equal. lia.
  - rewrite IH by lia. f_equal. lia.
Qed.

Lemma countdown_length (k n : nat) : List.length (countdown n k) = k.
Proof.
  revert n. induction k as [|k IH]; intros n; cbn; [reflexivity|].
  now rewrite IH.
Qed.

Section Runs.

Context {Data Extra Err : Type}.

Variable combineResponses :
  option (DataQueryResponse Data) -> DataQueryResponse Data ->
  DataQueryResponse Data.
Variable resultLimitReached :
  DataQueryRequest Extra -> DataQueryResponse Data -> bool.
Variable runQuery :
  DataQueryRequest Extra -> list (notification (DataQueryResponse Data) Err).
Variable request : DataQueryRequest Extra.
Variable partition : list TimeRange.

Local Abbreviation sched := (@Scheduler.sched Data Extra Err).
Local Abbreviation event := (@Scheduler.event Data Err).
Local Abbreviation step :=
  (@Scheduler.step Data Extra Err combineResponses resultLimitReached
     runQuery request partition).
Local Abbreviation run :=
  (@Scheduler.run Data Extra Err combineResponses resultLimitReached
     runQuery request partition).
Local Abbreviation on_value :=
  (@Scheduler.on_value Data Extra Err combineResponses resultLimitReached
     runQuery request partition).
Local Abbreviation handle :=
  (@Scheduler.handle Data Extra Err combineResponses resultLimitReached
     request).
Local Abbreviation next :=
  (@Scheduler.next Data Extra Err combineResponses resultLimitReached
     runQuery request partition).
Local Abbreviation older :=
  (@Scheduler.older Data Extra Err combineResponses resultLimitReached
     runQuery request partition).
Local Abbreviation subscribe :=
  (@Scheduler.subscribe Data Extra Err combineResponses resultLimitReached
     runQuery request partition).
Local Abbreviation subRequest :=
  (@Scheduler.subRequest Extra request partition).
Local Abbreviation log_query :=
  (@Scheduler.log_query Data Extra Err request partition).
Local Abbreviation total := (List.length partition).

(** The response that a value of a sub-query produces. *)
Local Abbreviation merged st p := (combineResponses (mergedResponse st) p).

(** Whether the datasource waits: no observable tells anything while it is
    subscribed to. *)
Local Abbreviation waits := (forall q, runQuery q = []).

Lemma next_eq (requestN : nat) (st : sched) :
  next requestN st
  = feed (on_value requestN) requestN (runQuery (subRequest requestN))
         (log_query requestN st).
Proof. destruct requestN; reflexivity. Qed.

Lemma older_next (requestN : nat) :
  (1 <= requestN)%nat -> older requestN = next (requestN - 1).
Proof.
  destruct requestN as [|m]; [lia|]. intros _. cbn [Scheduler.older].
  f_equal. lia.
Qed.

Lemma subscriber_next_fields (response : DataQueryResponse Data)
    (st : sched) :
  mergedResponse (subscriber_next response st) = mergedResponse st
  /\ subscriptions (subscriber_next response st) = subscriptions st
  /\ queries (subscriber_next response st) = queries st
  /\ closed (subscriber_next response st) = closed st
  /\ emitted (subscriber_next response st)
     = if closed st then emitted st else emitted st ++ [NextN response].
Proof.
  unfold subscriber_next. destruct (closed st) eqn:E; cbn; auto.
Qed.

Lemma on_value_unfold_streaming (requestN : nat)
    (p : DataQueryResponse Data) (st : sched) :
  (1 < requestN)%nat -> resultLimitReached request (merged st p) = false ->
  on_value requestN p st
  = subscriber_next (set_state Streaming (merged st p))
      (next (requestN - 1)
         (set_merged (set_state Streaming (merged st p)) st)).
Proof.
  intros HN Hlimit. unfold Scheduler.on_value, Scheduler.handle.
  destruct (Nat.ltb_spec 1 requestN); [|lia]. rewrite Hlimit. cbn [andb eqb].
  cbv zeta. now rewrite older_next by lia.
Qed.

Lemma on_value_unfold_done (requestN : nat) (p : DataQueryResponse Data)
    (st : sched) :
  (requestN <= 1)%nat \/ resultLimitReached request (merged st p) = true ->
  on_value requestN p st
  = subscriber_next (set_state Done (merged st p))
      (set_merged (set_state Done (merged st p)) st).
Proof.
  intros Hcase. unfold Scheduler.on_value, Scheduler.handle.
  assert (Hcond : (1 <? requestN)%nat
                  && eqb (resultLimitReached request (merged st p)) false
                  = false).
  { destruct Hcase as [HN| ->].
    - destruct (Nat.ltb_spec 1 requestN); [lia|reflexivity].
    - apply andb_false_r. }
  now rewrite Hcond.
Qed.

Lemma on_value_done (requestN : nat) (p : DataQueryResponse Data)
    (st : sched) :
  (requestN <= 1)%nat \/ resultLimitReached request (merged st p) = true ->
  let st' := on_value requestN p st in
  mergedResponse st' = Some (set_state Done (merged st p))
  /\ subscriptions st' = subscriptions st
  /\ queries st' = queries st
  /\ closed st' = closed st
  /\ emitted st'
     = if closed st then emitted st
       else emitted st ++ [NextN (set_state Done (merged st p))].
Proof.
  intros Hcase. cbv zeta. rewrite (on_value_unfold_done _ _ _ Hcase).
  match goal with
  | |- context [subscriber_next ?r ?s] =>
      destruct (subscriber_next_fields r s) as (-> & -> & -> & -> & ->)
  end.
  cbn. auto.
Qed.

(** ** Invariants of [next] and of runs, for any datasource *)

Section Invariant.

Variable P : sched -> Prop.
Variable ok : nat -> Prop.
Variable allowed : event -> Prop.

Hypothesis P_log :
  forall requestN st, ok requestN -> P st -> P (log_query requestN st).
Hypothesis P_open :
  forall requestN st, ok requestN -> P st -> P (open_subscription requestN st).
Hypothesis P_merged :
  forall s p (st : sched),
    s = Streaming \/ s = Done -> P st ->
    P (set_merged (set_state s (merged st p)) st).
Hypothesis P_emit :
  forall s (r : DataQueryResponse Data) (st : sched),
    s = Streaming \/ s = Done -> P st -> P (subscriber_next (set_state s r) st).
Hypothesis ok_older :
  forall requestN,
    ok (S (S requestN)) ->
    Exists (fun n => is_value n = true)
           (runQuery (subRequest (S (S requestN)))) ->
    ok (S requestN).

Lemma handle_invariant (dispatch : sched -> sched) (requestN : nat)
    (p : DataQueryResponse Data) (st : sched) :
  ((1 < requestN)%nat -> forall st', P st' -> P (dispatch st')) ->
  P st -> P (handle dispatch requestN p st).
Proof.
  intros Hd Hst. unfold Scheduler.handle.
  destruct ((1 <? requestN)%nat
            && eqb (resultLimitReached request (merged st p)) false) eqn:E.
  - apply andb_prop in E. destruct E as [HN _]. apply Nat.ltb_lt in HN.
    apply P_emit; [now left|]. apply Hd; [exact HN|].
    apply P_merged; [now left|exact Hst].
  - apply P_emit; [now right|]. apply P_merged; [now right|exact Hst].
Qed.

Lemma feed_invariant (dispatch : sched -> sched) (requestN : nat)
    (ns : list (notification (DataQueryResponse Data) Err)) :
  ok requestN ->
  (Exists (fun n => is_value n = true) ns -> (1 < requestN)%nat ->
   forall st', P st' -> P (dispatch st')) ->
  forall st, P st -> P (feed (handle dispatch requestN) requestN ns st).
Proof.
  intros Hok. induction ns as [|n ns IH]; intros Hd st Hst; cbn [feed].
  - now apply P_open.
  - destruct n as [p|e|]; [|exact Hst|exact Hst].
    apply IH.
    + intros Hex. apply Hd. now apply Exists_cons_tl.
    + apply handle_invariant; [|exact Hst].
      apply Hd. now apply Exists_cons_hd.
Qed.

Lemma next_invariant (requestN : nat) :
  ok requestN -> forall st, P st -> P (next requestN st).
Proof.
  induction requestN as [|m IH]; intros Hok st Hst; cbn [Scheduler.next].
  - apply feed_invariant; [exact Hok|intros _ H; lia|].
    now apply P_log.
  - apply feed_invariant; [exact Hok| |now apply P_log].
    intros Hex Hm. destruct m as [|m']; [lia|].
    apply IH. now apply ok_older.
Qed.

Lemma on_value_invariant (requestN : nat) (p : DataQueryResponse Data)
    (st : sched) :
  ((1 < requestN)%nat -> ok (requestN - 1)) ->
  P st -> P (on_value requestN p st).
Proof.
  intros Hok Hst. apply handle_invariant; [|exact Hst].
  intros HN st' Hst'. rewrite older_next by lia.
  apply next_invariant; [now apply Hok|exact Hst'].
Qed.

Hypothesis P_end : forall requestN st, P st -> P (on_end requestN st).
Hypothesis P_unsubscribed :
  forall st : sched,
    P st ->
    P (mkSched (mergedResponse st) (subscriptions st) (queries st)
               (emitted st) true).
Hypothesis ok_event :
  forall requestN p (st : sched),
    allowed (Deliver requestN (NextN p)) -> P st ->
    is_open requestN st = true -> (1 < requestN)%nat -> ok (requestN - 1).

Lemma step_invariant (st st' : sched) (ev : event) :
  allowed ev -> P st -> step st ev = Some st' -> P st'.
Proof.
  intros Hev Hst. destruct ev as [requestN [p|e|]|]; cbn;
    try (destruct (is_open requestN st) eqn:Hopen; [|discriminate]);
    intros [= <-]; auto.
  apply on_value_invariant; [|exact Hst].
  intros HN. exact (ok_event requestN p st Hev Hst Hopen HN).
Qed.

Lemma run_invariant (evs : list event) :
  Forall allowed evs ->
  forall st st', P st -> run st evs = Some st' -> P st'.
Proof.
  induction 1 as [|ev evs Hev _ IH]; intros st st' Hst; cbn.
  - intros [= <-]. exact Hst.
  - destruct (step st ev) as [st1|] eqn:Hstep; [|discriminate].
    apply IH. exact (step_invariant st st1 ev Hev Hst Hstep).
Qed.

End Invariant.

(** ** What holds of every run, for any datasource *)

Lemma remove_one_In (n x : nat) (l : list nat) :
  In x (remove_one n l) -> In x l.
Proof.
  induction l as [|y l IH]; cbn; [auto|].
  destruct (y =? n)%nat; [auto|]. intros [H|H]; auto.
Qed.

Lemma remove_one_Forall (Q : nat -> Prop) (n : nat) (l : list nat) :
  Forall Q l -> Forall Q (remove_one n l).
Proof.
  rewrite !Forall_forall. intros H x Hx. apply H.
  exact (remove_one_In _ _ _ Hx).
Qed.

Lemma is_open_In (requestN : nat) (st : sched) :
  is_open requestN st = true -> In requestN (subscriptions st).
Proof.
  unfold is_open. rewrite existsb_exists. intros (x & Hx & Heq).
  apply Nat.eqb_eq in Heq. now subst.
Qed.

Lemma is_open_head (requestN : nat) (st : sched) (rest : list nat) :
  subscriptions st = requestN :: rest -> is_open requestN st = true.
Proof.
  intros H. unfold is_open. rewrite H. cbn. now rewrite Nat.eqb_refl.
Qed.

(** Only values are emitted. *)
Local Abbreviation values_only st :=
  (Forall (fun n => is_value n = true) (emitted st)).




(** Once the subscriber is closed nothing is emitted. *)
Lemma next_closed (requestN : nat) (st : sched) :
  closed st = true ->
  closed (next requestN st) = true
  /\ emitted (next requestN st) = emitted st.
Proof.
  intros Hc.
  apply (next_invariant
           (fun st' => closed st' = true /\ emitted st' = emitted st)
           (fun _ => True)); auto.
  intros s r st' _ [H1 H2]. unfold subscriber_next. rewrite H1. auto.
Qed.

Lemma run_closed (evs : list event) (st st' : sched) :
  closed st = true -> run st evs = Some st' ->
  closed st' = true /\ emitted st' = emitted st.
Proof.
  intros Hc.
  apply (run_invariant
           (fun st' => closed st' = true /\ emitted st' = emitted st)
           (fun _ => True) (fun _ => True)); auto.
  - intros s r st1 _ [H1 H2]. unfold subscriber_next. rewrite H1. auto.
  - cbn. intros st1 [_ H]. auto.
  - apply Forall_forall. auto.
Qed.

(** The queries are extended, never changed. *)
Local Abbreviation extends Q st := (exists more, queries st = Q ++ more).

Lemma extends_log (Q : list (DataQueryRequest Extra)) (requestN : nat)
    (st : sched) :
  extends Q st -> extends Q (log_query requestN st).
Proof.
  intros (more & Hm). exists (more ++ [subRequest requestN]).
  cbn. now rewrite Hm, app_assoc.
Qed.

Lemma extends_emit (Q : list (DataQueryRequest Extra))
    (r : DataQueryResponse Data) (st : sched) :
  extends Q st -> extends Q (subscriber_next r st).
Proof. intros H. unfold subscriber_next. destruct (closed st); exact H. Qed.

Lemma next_extends_from (Q : list (DataQueryRequest Extra))
    (requestN : nat) (st : sched) :
  extends Q st -> extends Q (next requestN st).
Proof.
  apply (next_invariant (fun st => extends Q st) (fun _ => True)).
  - intros N st' _. apply extends_log.
  - intros N st' _ H. exact H.
  - intros s p st' _ H. exact H.
  - intros s r st' _. apply extends_emit.
  - auto.
  - exact I.
Qed.

Lemma next_extends (requestN : nat) (st : sched) :
  exists more,
    queries (next requestN st) = queries st ++ subRequest requestN :: more.
Proof.
  rewrite next_eq.
  assert (H : extends (queries st ++ [subRequest requestN])
                (feed (on_value requestN) requestN
                   (runQuery (subRequest requestN))
                   (log_query requestN st))).
  { apply (feed_invariant
             (fun st' => extends (queries st ++ [subRequest requestN]) st')
             (fun _ => True)).
    - intros N st' _ H. exact H.
    - intros s p st' _ H. exact H.
    - intros s r st' _. apply extends_emit.
    - exact I.
    - intros _ HN st' Hst'. rewrite older_next by lia.
      now apply next_extends_from.
    - exists []. cbn. now rewrite app_nil_r. }
  destruct H as (more & Hm). exists more. rewrite Hm, <- app_assoc.
  reflexivity.
Qed.

Local Abbreviation numbered :=
  (@Scheduler.numbered Data Extra Err request partition).

Lemma numbered_log (ok : nat -> Prop) (requestN : nat) (st : sched) :
  ok requestN -> numbered ok st -> numbered ok (log_query requestN st).
Proof.
  intros Hok (Hs & Hq & q0 & qs & Hf & H0). unfold Scheduler.numbered. cbn.
  split; [exact Hs|]. split.
  - apply Forall_app. split; [exact Hq|]. repeat constructor. eauto.
  - exists q0, (qs ++ [subRequest requestN]). rewrite Hf. auto.
Qed.

Lemma numbered_open (ok : nat -> Prop) (requestN : nat) (st : sched) :
  ok requestN -> numbered ok st -> numbered ok (open_subscription requestN st).
Proof.
  intros Hok (Hs & Hq & Hf). unfold Scheduler.numbered. cbn.
  split; [|auto].
  apply Forall_app. split; [exact Hs|]. repeat constructor. exact Hok.
Qed.

Lemma numbered_emit (ok : nat -> Prop) (r : DataQueryResponse Data)
    (st : sched) :
  numbered ok st -> numbered ok (subscriber_next r st).
Proof. intros H. unfold subscriber_next. destruct (closed st); exact H. Qed.

Lemma numbered_open_ok (ok : nat -> Prop) (requestN : nat) (st : sched) :
  numbered ok st -> is_open requestN st = true -> ok requestN.
Proof.
  intros (Hs & _) Hopen. apply is_open_In in Hopen.
  rewrite Forall_forall in Hs. auto.
Qed.

Lemma numbered_merged (ok : nat -> Prop) (r : DataQueryResponse Data)
    (st : sched) :
  numbered ok st -> numbered ok (set_merged r st).
Proof. intros H. exact H. Qed.

Lemma numbered_end (ok : nat -> Prop) (requestN : nat) (st : sched) :
  numbered ok st -> numbered ok (on_end requestN st).
Proof.
  intros (Hs & Hq). unfold Scheduler.numbered. cbn.
  split; [|exact Hq]. now apply remove_one_Forall.
Qed.

Lemma numbered_subscribe (ok : nat -> Prop) :
  ok total ->
  (forall N, ok (S (S N)) ->
     Exists (fun n => is_value n = true)
            (runQuery (subRequest (S (S N)))) -> ok (S N)) ->
  numbered ok subscribe.
Proof.
  intros Htotal Hold. unfold Scheduler.subscribe. rewrite next_eq.
  apply (feed_invariant (fun st => numbered ok st) ok).
  - intros N st Hok. now apply numbered_open.
  - intros s p st _. apply numbered_merged.
  - intros s r st _. apply numbered_emit.
  - exact Htotal.
  - intros Hex HN st' Hst'. rewrite older_next by lia.
    apply (next_invariant (fun st => numbered ok st) ok).
    + intros N st Hok. now apply numbered_log.
    + intros N st Hok. now apply numbered_open.
    + intros s p st _. apply numbered_merged.
    + intros s r st _. apply numbered_emit.
    + exact Hold.
    + unfold totalRequests in *. remember total as n eqn:E.
      destruct n as [|[|m]]; [lia|lia|].
      replace (S (S m) - 1)%nat with (S m) by lia.
      apply Hold; [exact Htotal|exact Hex].
    + exact Hst'.
  - unfold Scheduler.numbered. cbn. split; [constructor|]. split.
    + repeat constructor. exists (totalRequests partition).
      split; [exact Htotal|reflexivity].
    + eexists _, _. split; reflexivity.
Qed.

Lemma numbered_run (ok : nat -> Prop) (allowed : event -> Prop)
    (evs : list event) (st : sched) :
  ok total ->
  (forall N, ok (S (S N)) ->
     Exists (fun n => is_value n = true)
            (runQuery (subRequest (S (S N)))) -> ok (S N)) ->
  (forall N p, allowed (Deliver N (NextN p)) -> ok N -> (1 < N)%nat ->
     ok (N - 1)%nat) ->
  Forall allowed evs ->
  run subscribe evs = Some st ->
  numbered ok st.
Proof.
  intros Htotal Hold Hev Hevs.
  apply (run_invariant (fun st => numbered ok st) ok allowed).
  - intros N st1 Hok. now apply numbered_log.
  - intros N st1 Hok. now apply numbered_open.
  - intros s p st1 _. apply numbered_merged.
  - intros s r st1 _. apply numbered_emit.
  - exact Hold.
  - intros N st1. apply numbered_end.
  - intros st1 H. exact H.
  - intros N p st1 Hallowed Hst1 Hopen HN.
    exact (Hev N p Hallowed (numbered_open_ok ok N st1 Hst1 Hopen) HN).
  - exact Hevs.
  - now apply numbered_subscribe.
Qed.

(** Every query of a run is the query of a partition, and the first one
    that of the last partition. *)
Lemma run_numbered (evs : list event) (st : sched) :
  run subscribe evs = Some st ->
  numbered (fun N => (N <= total)%nat) st.
Proof.
  apply (numbered_run (fun N => (N <= total)%nat) (fun _ => True)).
  - lia.
  - intros; lia.
  - intros; lia.
  - apply Forall_forall. auto.
Qed.


(** ** Events *)

Lemma step_no_value (st st' : sched) (ev : event) :
  brings_value ev = false -> step st ev = Some st' ->
  mergedResponse st' = mergedResponse st
  /\ queries st' = queries st
  /\ emitted st' = emitted st.
Proof.
  destruct ev as [requestN [p|e|]|]; cbn; try discriminate; intros _;
    try (destruct (is_open requestN st); [|discriminate]);
    intros [= <-]; cbn; auto.
Qed.

Lemma run_no_value (evs : list event) :
  Forall (fun ev => brings_value ev = false) evs ->
  forall st st',
    run st evs = Some st' ->
    mergedResponse st' = mergedResponse st
    /\ queries st' = queries st
    /\ emitted st' = emitted st.
Proof.
  induction 1 as [|ev evs Hev _ IH]; intros st st'; cbn.
  - intros [= <-]. auto.
  - destruct (step st ev) as [st1|] eqn:Hstep; [|discriminate].
    intros Hrun. destruct (IH _ _ Hrun) as (-> & -> & ->).
    exact (step_no_value st st1 ev Hev Hstep).
Qed.

Lemma step_idle (st st' : sched) (ev : event) :
  subscriptions st = [] -> step st ev = Some st' ->
  subscriptions st' = []
  /\ mergedResponse st' = mergedResponse st
  /\ queries st' = queries st
  /\ emitted st' = emitted st.
Proof.
  intros Hidle. destruct ev as [requestN n|]; cbn.
  - unfold is_open. rewrite Hidle. cbn. discriminate.
  - intros [= <-]. cbn. auto.
Qed.

Lemma run_idle (evs : list event) :
  forall st st',
    subscriptions st = [] -> run st evs = Some st' ->
    mergedResponse st' = mergedResponse st
    /\ queries st' = queries st
    /\ emitted st' = emitted st.
Proof.
  induction evs as [|ev evs IH]; intros st st' Hidle; cbn.
  - intros [= <-]. auto.
  - destruct (step st ev) as [st1|] eqn:Hstep; [|discriminate].
    intros Hrun.
    destruct (step_idle st st1 ev Hidle Hstep) as (Hidle1 & <- & <- & <-).
    exact (IH st1 st' Hidle1 Hrun).
Qed.

Lemma run_step (st st1 : sched) (ev : event) (evs : list event) :
  step st ev = Some st1 -> run st (ev :: evs) = run st1 evs.
Proof. intros H. cbn [Scheduler.run]. now rewrite H. Qed.


Lemma step_value (requestN : nat) (p : DataQueryResponse Data)
    (st : sched) :
  is_open requestN st = true ->
  step st (Deliver requestN (NextN p)) = Some (on_value requestN p st).
Proof. intros H. cbn. now rewrite H. Qed.

Lemma step_complete (requestN : nat) (st : sched) :
  is_open requestN st = true ->
  step st (Deliver requestN CompleteN) = Some (on_end requestN st).
Proof. intros H. cbn. now rewrite H. Qed.


Lemma answers_cons (requestN : nat) (p : DataQueryResponse Data)
    (responses : list (DataQueryResponse Data)) :
  answers (Err := Err) requestN (p :: responses)
  = Deliver requestN (NextN p) :: Deliver requestN CompleteN
      :: answers (requestN - 1) responses.
Proof. reflexivity. Qed.

(** ** A datasource that waits *)

Section Waiting.

Hypothesis Hwaits : waits.

Lemma next_waits (requestN : nat) (st : sched) :
  next requestN st = open_subscription requestN (log_query requestN st).
Proof. rewrite next_eq, Hwaits. reflexivity. Qed.

Lemma on_value_streaming (requestN : nat) (p : DataQueryResponse Data)
    (st : sched) :
  (1 < requestN)%nat -> resultLimitReached request (merged st p) = false ->
  let st' := on_value requestN p st in
  mergedResponse st' = Some (set_state Streaming (merged st p))
  /\ subscriptions st' = subscriptions st ++ [(requestN - 1)%nat]
  /\ queries st' = queries st ++ [subRequest (requestN - 1)]
  /\ closed st' = closed st
  /\ emitted st'
     = if closed st then emitted st
       else emitted st ++ [NextN (set_state Streaming (merged st p))].
Proof.
  intros HN Hlimit. cbv zeta.
  rewrite (on_value_unfold_streaming _ _ _ HN Hlimit), next_waits.
  match goal with
  | |- context [subscriber_next ?r ?s] =>
      destruct (subscriber_next_fields r s) as (-> & -> & -> & -> & ->)
  end.
  cbn. auto.
Qed.

(** Whatever a value leads to, the queries and the emissions only grow,
    and the emissions grow by values only. *)
Lemma on_value_cases (requestN : nat) (p : DataQueryResponse Data)
    (st : sched) :
  let st' := on_value requestN p st in
  closed st' = closed st
  /\ (exists s,
        mergedResponse st' = Some (set_state s (merged st p))
        /\ emitted st'
           = if closed st then emitted st
             else emitted st ++ [NextN (set_state s (merged st p))])
  /\ ((queries st' = queries st /\ subscriptions st' = subscriptions st)
      \/ (queries st' = queries st ++ [subRequest (requestN - 1)]
          /\ subscriptions st' = subscriptions st ++ [(requestN - 1)%nat])).
Proof.
  destruct (Nat.ltb_spec 1 requestN) as [HN|HN].
  - destruct (resultLimitReached request (merged st p)) eqn:Hlimit.
    + destruct (on_value_done requestN p st (or_intror Hlimit))
        as (Hm & Hs & Hq & Hc & He).
      cbv zeta. split; [exact Hc|]. split; [|left; auto].
      exists Done. auto.
    + destruct (on_value_streaming requestN p st HN Hlimit)
        as (Hm & Hs & Hq & Hc & He).
      cbv zeta. split; [exact Hc|]. split; [|right; auto].
      exists Streaming. auto.
  - destruct (on_value_done requestN p st (or_introl HN))
      as (Hm & Hs & Hq & Hc & He).
    cbv zeta. split; [exact Hc|]. split; [|left; auto].
    exists Done. auto.
Qed.

Lemma subscribe_waits :
  subscribe
  = mkSched None [total] [subRequest total] [] false.
Proof. unfold Scheduler.subscribe. rewrite next_waits. reflexivity. Qed.


(** The same, followed by a last answer, which is that of the first
    partition or one on which the limit is reached. *)
Lemma run_answers_until :
  forall (responses : list (DataQueryResponse Data)) (st : sched)
         (n : nat) (p : DataQueryResponse Data),
    subscriptions st = [n] -> closed st = false ->
    (List.length responses < n)%nat \/ responses = [] ->
    Forall (fun m => resultLimitReached request m = false)
           (merges combineResponses (mergedResponse st) responses) ->
    resultLimitReached request
      (combineResponses
         (merged_after combineResponses (mergedResponse st) responses) p)
    = true
    \/ (n <= List.length responses + 1)%nat ->
    exists st' : sched,
      run st (answers n (responses ++ [p])) = Some st'
      /\ subscriptions st' = []
      /\ closed st' = false
      /\ queries st'
         = queries st
           ++ map subRequest (countdown (n - 1) (List.length responses))
      /\ emitted st'
         = emitted st
           ++ map (fun m => NextN (set_state Streaming m))
                  (merges combineResponses (mergedResponse st) responses)
           ++ [NextN (set_state Done
                        (combineResponses
                           (merged_after combineResponses
                              (mergedResponse st) responses) p))]
      /\ mergedResponse st'
         = Some (set_state Done
                   (combineResponses
                      (merged_after combineResponses
                         (mergedResponse st) responses) p)).
Proof.
  induction responses as [|p0 responses IH];
    intros st n p Hsub Hclosed Hlen Hfalse Hlast.
  - cbn [app merges merged_after map List.length] in *.
    destruct (on_value_done n p st) as (Hm & Hs & Hq & Hc & He).
    { destruct Hlast as [Hl|Hl]; [right; exact Hl|left; lia]. }
    cbv zeta in *. rewrite Hsub in Hs. rewrite Hclosed in Hc, He.
    rewrite answers_cons.
    rewrite (run_step _ _ _ _
               (step_value _ p st (is_open_head _ st [] Hsub))).
    rewrite (run_step _ _ _ _
               (step_complete _ _ (is_open_head _ _ [] Hs))).
    eexists. split; [reflexivity|].
    cbn [on_end subscriptions closed queries emitted mergedResponse].
    rewrite Hs, Hc, Hq, He, Hm. cbn. rewrite Nat.eqb_refl, app_nil_r. auto.
  - assert (Hn : (List.length (p0 :: responses) < n)%nat)
      by (destruct Hlen as [H|H]; [exact H|discriminate]).
    cbn [List.length] in Hn.
    cbn [merges merged_after] in Hfalse, Hlast.
    inversion Hfalse as [|? ? Hp0 Hrest]; subst.
    destruct (on_value_streaming n p0 st) as (Hm & Hs & Hq & Hc & He);
      [lia|exact Hp0|].
    cbv zeta in *. rewrite Hsub in Hs. rewrite Hclosed in Hc, He.
    cbn [app]. rewrite answers_cons.
    rewrite (run_step _ _ _ _
               (step_value _ p0 st (is_open_head _ st [] Hsub))).
    rewrite (run_step _ _ _ _
               (step_complete _ _ (is_open_head _ _ [(n - 1)%nat] Hs))).
    set (st2 := on_end n (on_value n p0 st)).
    assert (Hs2 : subscriptions st2 = [(n - 1)%nat]).
    { unfold st2. cbn [on_end subscriptions]. rewrite Hs. cbn.
      now rewrite Nat.eqb_refl. }
    assert (Hm2 : mergedResponse st2
                  = Some (set_state Streaming (merged st p0)))
      by exact Hm.
    destruct (IH st2 (n - 1)%nat p Hs2 Hc) as (st' & Hrun & Hrest');
      [left; lia|rewrite Hm2; exact Hrest| |].
    { rewrite Hm2. destruct Hlast as [Hl|Hl]; [left; exact Hl|].
      right. cbn [List.length] in Hl. lia. }
    exists st'. split; [exact Hrun|].
    destruct Hrest' as (Hsub' & Hclosed' & Hq' & He' & Hm').
    rewrite Hm2 in *.
    split; [exact Hsub'|]. split; [exact Hclosed'|].
    split; [|split].
    + rewrite Hq'. unfold st2 at 1. cbn [on_end queries]. rewrite Hq.
      rewrite <- app_assoc. reflexivity.
    + rewrite He'. unfold st2 at 1. cbn [on_end emitted]. rewrite He.
      cbn [merges merged_after map]. rewrite <- !app_assoc. reflexivity.
    + exact Hm'.
Qed.

(** Every sub-query answers once and the limit is never reached: the
    sub-queries run one after the other down to the first partition. *)
Lemma run_subscribe_answers
    (responses : list (DataQueryResponse Data)) :
  (forall r, resultLimitReached request r = false) ->
  (1 <= total)%nat ->
  List.length responses = total ->
  exists st,
    run subscribe (answers total responses) = Some st
    /\ subscriptions st = []
    /\ queries st = map subRequest (countdown total total).
Proof.
  intros Hlimit Hpos Hlen.
  destruct responses as [|p responses] using rev_ind;
    [cbn in Hlen; lia|]. clear IHresponses.
  rewrite length_app in Hlen. cbn [List.length] in Hlen.
  destruct (run_answers_until responses subscribe total p)
    as (st & Hrun & Hidle & _ & Hq & _).
  - now rewrite subscribe_waits.
  - now rewrite subscribe_waits.
  - left. lia.
  - apply Forall_forall. intros m _. apply Hlimit.
  - right. lia.
  - exists st. split; [exact Hrun|]. split; [exact Hidle|].
    rewrite Hq, subscribe_waits. cbn [queries app].
    replace (List.length responses) with (total - 1)%nat by lia.
    destruct total as [|n]; [lia|]. cbn. now rewrite Nat.sub_0_r.
Qed.

End Waiting.

Lemma marks_app (l1 l2 : list (notification (DataQueryResponse Data) Err)) :
  marks (l1 ++ l2) = marks l1 ++ marks l2.
Proof. apply map_app. Qed.

Lemma marks_streaming (l : list (DataQueryResponse Data)) :
  marks (Err := Err) (map (fun m => NextN (set_state Streaming m)) l)
  = repeat (Some Streaming) (List.length l).
Proof.
  induction l as [|m l IH]; cbn; [reflexivity|]. f_equal. exact IH.
Qed.

Lemma merges_length (acc : option (DataQueryResponse Data))
    (responses : list (DataQueryResponse Data)) :
  List.length (merges combineResponses acc responses)
  = List.length responses.
Proof.
  revert acc. induction responses as [|p responses IH]; intros acc; cbn;
    [reflexivity|]. now rewrite IH.
Qed.

(** ** The claims about the scheduler, for any collaborators *)



(** C7, amended.  Every query is tagged [requestId_N] where [N] is the
    position, from 1, of its partition in chronological order: its range is
    [partition[N - 1]].  The query issued first, for the newest partition,
    has [N] the number of partitions; and when every sub-query answers once
    and the limit is never reached, the [k]-th query issued, counting from
    0, has [N = total - k], down to [N = 1] for the oldest partition. *)
Theorem subrequest_ids_count_down :
  (forall (evs : list event) (st : sched),
     run subscribe evs = Some st ->
     (exists q,
        nth_error (queries st) 0 = Some q
        /\ requestId q
           = (requestId request ++ "_"
              ++ string_of_nat (List.length partition))%string)
     /\ forall q, In q (queries st) ->
          exists N,
            (N <= List.length partition)%nat
            /\ requestId q
               = (requestId request ++ "_" ++ string_of_nat N)%string
            /\ range q = partition_at partition N)
  /\ (waits ->
      forall responses : list (DataQueryResponse Data),
        (forall r, resultLimitReached request r = false) ->
        (1 <= List.length partition)%nat ->
        List.length responses = List.length partition ->
        exists st : sched,
          run subscribe (answers (List.length partition) responses) = Some st
          /\ List.length (queries st) = List.length partition
          /\ forall k, (k < List.length partition)%nat ->
               exists q,
                 nth_error (queries st) k = Some q
                 /\ requestId q
                    = (requestId request ++ "_"
                       ++ string_of_nat (List.length partition - k))%string
                 /\ range q
                    = nth_error partition (List.length partition - k - 1)).
Proof.
  split.
  - intros evs st Hrun.
    destruct (run_numbered evs st Hrun) as (_ & Hq & q0 & qs & Hf & H0).
    split.
    + exists q0. rewrite Hf. split; [reflexivity|]. rewrite H0. reflexivity.
    + intros q Hin. rewrite Forall_forall in Hq.
      destruct (Hq q Hin) as (N & HN & ->). exists N.
      split; [exact HN|]. split; reflexivity.
  - intros Hwaits responses Hlimit Hpos Hlen.
    destruct (run_subscribe_answers Hwaits responses Hlimit Hpos Hlen)
      as (st & Hrun & _ & Hq).
    exists st. split; [exact Hrun|]. rewrite Hq. split.
    + now rewrite length_map, countdown_length.
    + intros k Hk. exists (subRequest (List.length partition - k)).
      split.
      * rewrite nth_error_map, countdown_nth by exact Hk. reflexivity.
      * split; [reflexivity|]. cbn [Scheduler.subRequest range].
        destruct (List.length partition - k)%nat as [|i] eqn:E; [lia|].
        cbn [partition_at]. f_equal. lia.
Qed.

(** C9, amended.  After the caller has unsubscribed nothing more is
    emitted, whatever the sub-queries do.  The scheduler itself takes no
    notice: a value of a sub-query that was running is still merged and,
    when it is not the sub-query of the first partition and the limit is
    not reached, the next older sub-query is still issued. *)
Theorem unsubscribe_stops_emissions_only :
  (forall (st st' : sched) (evs : list event),
     run st (Unsubscribe :: evs) = Some st' ->
     emitted st' = emitted st)
  /\ (waits ->
      forall (st : sched) requestN (p : DataQueryResponse Data),
        closed st = true ->
        is_open requestN st = true ->
        (1 < requestN)%nat ->
        resultLimitReached request
          (combineResponses (mergedResponse st) p) = false ->
        exists st' : sched,
          step st (Deliver requestN (NextN p)) = Some st'
          /\ mergedResponse st'
             = Some (set_state Streaming
                       (combineResponses (mergedResponse st) p))
          /\ queries st' = queries st ++ [subRequest (requestN - 1)]
          /\ emitted st' = emitted st)
  /\ (forall (st : sched) requestN (p : DataQueryResponse Data),
        closed st = true ->
        is_open requestN st = true ->
        (1 < requestN)%nat ->
        resultLimitReached request
          (combineResponses (mergedResponse st) p) = false ->
        exists (st' : sched) more,
          step st (Deliver requestN (NextN p)) = Some st'
          /\ queries st' = queries st ++ subRequest (requestN - 1) :: more
          /\ emitted st' = emitted st)
  /\ (forall (st : sched) requestN (p : DataQueryResponse Data),
        closed st = true ->
        is_open requestN st = true ->
        (requestN <= 1)%nat
        \/ resultLimitReached request
             (combineResponses (mergedResponse st) p) = true ->
        exists st' : sched,
          step st (Deliver requestN (NextN p)) = Some st'
          /\ mergedResponse st'
             = Some (set_state Done
                       (combineResponses (mergedResponse st) p))
          /\ state (set_state Done
                      (combineResponses (mergedResponse st) p)) = Done
          /\ queries st' = queries st
          /\ emitted st' = emitted st).
Proof.
  split; [|split; [|split]].
  - intros st st' evs. cbn [Scheduler.run Scheduler.step]. intros Hrun.
    apply run_closed in Hrun; [|reflexivity]. destruct Hrun as [_ He].
    exact He.
  - intros Hwaits st requestN p Hclosed Hopen HN Hlimit.
    exists (on_value requestN p st). split; [now apply step_value|].
    destruct (on_value_streaming Hwaits requestN p st HN Hlimit)
      as (Hm & _ & Hq & _ & He).
    cbv zeta in *. rewrite Hclosed in He. auto.
  - intros st requestN p Hclosed Hopen HN Hlimit.
    rewrite (step_value _ p st Hopen).
    rewrite (on_value_unfold_streaming _ _ _ HN Hlimit).
    set (st1 := set_merged _ st).
    destruct (next_extends (requestN - 1) st1) as (more & Hmore).
    destruct (next_closed (requestN - 1) st1 Hclosed) as (Hc & He).
    eexists _, more. split; [reflexivity|].
    destruct (subscriber_next_fields
                (set_state Streaming
                   (combineResponses (mergedResponse st) p))
                (next (requestN - 1) st1)) as (_ & _ & -> & _ & ->).
    rewrite Hc, He, Hmore. auto.
  - intros st requestN p Hclosed Hopen Hcase.
    exists (on_value requestN p st). split; [now apply step_value|].
    destruct (on_value_done requestN p st Hcase)
      as (Hm & _ & Hq & _ & He).
    cbv zeta in *. rewrite Hclosed in He. auto.
Qed.

End Runs.

(** ** The scenario of the unit test, and runs on explicit inputs *)

Section Scenarios.

Import Scenario.

(** The range of the scenario split with the ideal size of one minute that
    [runPartitionedQuery] uses. *)
Lemma getRanges_minute (t0 : Z) (fuel : nat) :
  0 <= t0 -> Z.rem t0 10000 = 0 -> (9 <= fuel)%nat ->
  Partitioner.getRanges fuel (t0 + 3000) (t0 + 63000) 10000 (60 * 1000)
  = Returns [(t0, t0 + 10000); (t0 + 20000, t0 + 70000)].
Proof.
  intros Hpos Hrem Hfuel.
  assert (Hexp : Partitioner.expandTimeRange (t0 + 3000) (t0 + 63000) 10000
                 = Some (t0, t0 + 70000)).
  { apply Z.rem_divide in Hrem; [|lia]. destruct Hrem as (q & ->).
    unfold Partitioner.expandTimeRange, Partitioner.js_rem. cbn [Z.eqb].
    rewrite !Z.rem_mod_nonneg by lia.
    assert (H1 : (q * 10000 + 3000) mod 10000 = 3000).
    { replace (q * 10000 + 3000) with (3000 + q * 10000) by lia.
      rewrite Z.mod_add by lia. reflexivity. }
    assert (H2 : (q * 10000 + 63000) mod 10000 = 3000).
    { replace (q * 10000 + 63000) with (3000 + (q + 6) * 10000) by lia.
      rewrite Z.mod_add by lia. reflexivity. }
    rewrite H1, H2. cbn [Z.eqb negb]. f_equal. f_equal; lia. }
  unfold Partitioner.getRanges, Partitioner.getAllPoints. rewrite Hexp.
  assert (Hcount : Partitioner.pointCount 10000 t0 (t0 + 70000) = 8%nat).
  { unfold Partitioner.pointCount.
    destruct (Z.leb_spec t0 (t0 + 70000)); [|lia].
    replace (t0 + 70000 - t0) with 70000 by lia. reflexivity. }
  rewrite PartitionerFacts.getAllPoints_loop_exact by (rewrite ?Hcount; lia).
  rewrite Hcount. cbv -[Z.add].
  repeat (f_equal; try lia).
Qed.

(** C4, amended.  Start 14:10:03, end 14:11:03, step 10 s, where [t0] is
    14:10:00 in milliseconds (a multiple of 10 s in every time zone).  With
    the ideal chunk size 35 s, [getRanges] returns the ranges
    [14:10:00, 14:10:10], [14:10:20, 14:10:40], [14:10:50, 14:11:10], in
    this order.  The scheduler splits with its own ideal chunk size, the
    constant 60 s: for this request it makes the two partitions
    [14:10:00, 14:10:10] and [14:10:20, 14:11:10].  It queries them newest
    first: in every run the first query is that of [14:10:20, 14:11:10];
    and when every sub-query answers once and the limit is never reached,
    be it later or at once, the queries are that of [14:10:20, 14:11:10]
    and then that of [14:10:00, 14:10:10]. *)
Theorem scenario_newest_first {Data Extra Err : Type}
    (combineResponses :
       option (DataQueryResponse Data) -> DataQueryResponse Data ->
       DataQueryResponse Data)
    (resultLimitReached :
       DataQueryRequest Extra -> DataQueryResponse Data -> bool)
    (runQuery :
       DataQueryRequest Extra ->
       list (notification (DataQueryResponse Data) Err))
    (request : DataQueryRequest Extra) (tr : TimeRange)
    (t0 : Z) (fuel : nat) :
  0 <= t0 -> Z.rem t0 10000 = 0 -> (9 <= fuel)%nat ->
  range request = Some tr ->
  from tr = t0 + 3000 -> to tr = t0 + 63000 ->
  intervalMs request = 10000 ->
  (forall r, resultLimitReached request r = false) ->
  let oldest := toTimeRange (t0, t0 + 10000) in
  let newest := toTimeRange (t0 + 20000, t0 + 70000) in
  Partitioner.getRanges fuel (t0 + 3000) (t0 + 63000) 10000 35000
  = Returns [(t0, t0 + 10000); (t0 + 20000, t0 + 40000);
             (t0 + 50000, t0 + 70000)]
  /\ runPartitionedQuery fuel request = Returns [oldest; newest]
  /\ (forall evs (st : @sched Data Extra Err),
        run combineResponses resultLimitReached runQuery request
            [oldest; newest]
            (subscribe combineResponses resultLimitReached runQuery
               request [oldest; newest]) evs = Some st ->
        exists q qs, queries st = q :: qs /\ range q = Some newest)
  /\ ((forall q, runQuery q = []) ->
      forall p2 p1,
        exists st : @sched Data Extra Err,
          run combineResponses resultLimitReached runQuery request
              [oldest; newest]
              (subscribe combineResponses resultLimitReached runQuery
                 request [oldest; newest])
              (answers 2 [p2; p1]) = Some st
          /\ map range (queries st) = [Some newest; Some oldest])
  /\ (forall p2 p1,
        runQuery (subRequest request [oldest; newest] 2)
        = [NextN p2; CompleteN] ->
        runQuery (subRequest request [oldest; newest] 1)
        = [NextN p1; CompleteN] ->
        map range
          (queries
             (subscribe combineResponses resultLimitReached runQuery
                request [oldest; newest]))
        = [Some newest; Some oldest]).
Proof.
  intros Hpos Hrem Hfuel Hrange Hfrom Hto Hstep Hlimit oldest newest.
  split; [exact (PartitionerFacts.getRanges_scenario t0 fuel Hpos Hrem
                   Hfuel)|].
  split.
  { unfold runPartitionedQuery. rewrite Hrange, Hfrom, Hto, Hstep.
    rewrite (getRanges_minute t0 fuel Hpos Hrem Hfuel). reflexivity. }
  split.
  { intros evs st Hrun.
    destruct (run_numbered _ _ _ _ _ evs st Hrun)
      as (_ & _ & q0 & qs & Hf & H0).
    exists q0, qs. split; [exact Hf|]. rewrite H0. reflexivity. }
  split.
  - intros Hwaits p2 p1.
    destruct (run_subscribe_answers combineResponses resultLimitReached
                runQuery request [oldest; newest] Hwaits [p2; p1] Hlimit)
      as (st & Hrun & _ & Hq); [cbn; lia|reflexivity|].
    exists st. split; [exact Hrun|]. rewrite Hq. reflexivity.
  - intros p2 p1 H2 H1. unfold subscribe, totalRequests.
    cbn [List.length]. rewrite next_eq, H2. cbn [feed].
    rewrite on_value_unfold_streaming; [|lia|apply Hlimit].
    change (2 - 1)%nat with 1%nat. rewrite next_eq, H1. cbn [feed].
    rewrite on_value_unfold_done; [|left; lia].
    reflexivity.
Qed.

Lemma scenario_newest_first_witness :
  Partitioner.getRanges 9 (t0 + 3000) (t0 + 63000) 10000 35000
  = Returns [(t0, t0 + 10000); (t0 + 20000, t0 + 40000);
             (t0 + 50000, t0 + 70000)]
  /\ runPartitionedQuery 9 request = Returns two
  /\ exists st : @sched (list nat) unit string,
       run combineSamples noLimit later request two
           (subscribe combineSamples noLimit later request two)
           (answers 2 [sample 2; sample 1]) = Some st
       /\ map range (queries st)
          = [Some (toTimeRange (t0 + 20000, t0 + 70000));
             Some (toTimeRange (t0, t0 + 10000))].
Proof.
  destruct (scenario_newest_first combineSamples noLimit later request
              (mkTimeRange (t0 + 3000) (t0 + 63000)
                 (t0 + 3000, t0 + 63000)) t0 9)
    as (H1 & H2 & _ & H3 & _);
    [vm_compute; discriminate|reflexivity|lia|reflexivity|reflexivity
    |reflexivity|reflexivity|reflexivity|].
  split; [exact H1|]. split; [exact H2|].
  apply H3. reflexivity.
Defined.

(** C4, as stated, fails.  The scheduler does not make the three
    partitions of the claim from this request: with its ideal chunk size
    of 60 s it makes two, and it issues two queries, the one of
    [14:10:20, 14:11:10] and then the one of [14:10:00, 14:10:10]. *)
Lemma scenario_has_two_partitions :
  runPartitionedQuery 9 request
  = Returns [toTimeRange (t0, t0 + 10000);
             toTimeRange (t0 + 20000, t0 + 70000)]
  /\ exists st : @sched (list nat) unit string,
       run combineSamples noLimit later request two
           (subscribe combineSamples noLimit later request two)
           (answers 2 [sample 2; sample 1]) = Some st
       /\ subscriptions st = []
       /\ map range (queries st)
          = [Some (toTimeRange (t0 + 20000, t0 + 70000));
             Some (toTimeRange (t0, t0 + 10000))].
Proof.
  split; [reflexivity|]. eexists. split; [reflexivity|].
  split; reflexivity.
Qed.

(** What [runPartitionedQuery] itself makes of the range of the scenario:
    its ideal chunk size is the constant 60 s, which gives two partitions. *)
Lemma runPartitionedQuery_scenario :
  runPartitionedQuery 9 request
  = Returns (map toTimeRange
               [(t0, t0 + 10000); (t0 + 20000, t0 + 70000)]).
Proof. reflexivity. Qed.

(** The requests of the runs below and their partitions. *)
Lemma runPartitionedQuery_three :
  runPartitionedQuery 19 requestOfThree = Returns partitionOfThree.
Proof. reflexivity. Qed.

Lemma runPartitionedQuery_five :
  runPartitionedQuery 31 requestOfFive = Returns partitionOfFive.
Proof. reflexivity. Qed.





(** C7, as stated, fails.  With three partitions the query issued first,
    for the newest partition, is tagged [A_3], not [A_1]. *)
Lemma first_query_has_highest_number :
  runPartitionedQuery 19 requestOfThree = Returns partitionOfThree
  /\ exists st : @sched (list nat) unit string,
    run combineSamples noLimit later requestOfThree partitionOfThree
        (subscribe combineSamples noLimit later requestOfThree
           partitionOfThree)
        (answers 3 [sample 3; sample 2; sample 1]) = Some st
    /\ map requestId (queries st) = ["A_3"; "A_2"; "A_1"]%string
    /\ map range (queries st) = map Some (rev partitionOfThree).
Proof.
  split; [reflexivity|].
  eexists. split; [reflexivity|]. split; reflexivity.
Qed.

Lemma subrequest_ids_count_down_witness :
  exists st : @sched (list nat) unit string,
    run combineSamples noLimit later requestOfThree partitionOfThree
        (subscribe combineSamples noLimit later requestOfThree
           partitionOfThree)
        (answers (List.length partitionOfThree)
                 [sample 3; sample 2; sample 1])
    = Some st
    /\ List.length (queries st) = List.length partitionOfThree
    /\ forall k, (k < List.length partitionOfThree)%nat ->
         exists q,
           nth_error (queries st) k = Some q
           /\ requestId q
              = (requestId requestOfThree ++ "_"
                 ++ string_of_nat (List.length partitionOfThree - k))%string
           /\ range q
              = nth_error partitionOfThree
                  (List.length partitionOfThree - k - 1).
Proof.
  destruct (subrequest_ids_count_down (Err := string) combineSamples
              noLimit later requestOfThree partitionOfThree) as (_ & H).
  apply (H (fun _ => eq_refl) [sample 3; sample 2; sample 1]);
    [reflexivity|cbn; lia|reflexivity].
Defined.

(** C9, as stated, fails.  Three partitions; the caller unsubscribes after
    the first emission, while the second sub-query is running.  When that
    sub-query answers, its response is merged and the third sub-query is
    issued. *)
Lemma unsubscribe_does_not_stop_queries :
  runPartitionedQuery 19 requestOfThree = Returns partitionOfThree
  /\ exists st1 st2 : @sched (list nat) unit string,
    run combineSamples noLimit later requestOfThree partitionOfThree
        (subscribe combineSamples noLimit later requestOfThree
           partitionOfThree)
        [Deliver 3 (NextN (sample 3)); Unsubscribe] = Some st1
    /\ run combineSamples noLimit later requestOfThree partitionOfThree st1
           [Deliver 2 (NextN (sample 2))] = Some st2
    /\ map requestId (queries st1) = ["A_3"; "A_2"]%string
    /\ map requestId (queries st2) = ["A_3"; "A_2"; "A_1"]%string
    /\ mergedResponse st1 = Some (mkResponse [3%nat] Streaming)
    /\ mergedResponse st2 = Some (mkResponse [3%nat; 2%nat] Streaming).
Proof.
  split; [reflexivity|].
  eexists. eexists. split; [reflexivity|]. split; [reflexivity|].
  repeat split.
Qed.

Lemma unsubscribe_stops_emissions_only_witness :
  exists st1 st2 : @sched (list nat) unit string,
    run combineSamples noLimit later requestOfThree partitionOfThree
        (subscribe combineSamples noLimit later requestOfThree
           partitionOfThree)
        [Deliver 3 (NextN (sample 3)); Unsubscribe] = Some st1
    /\ step combineSamples noLimit later requestOfThree partitionOfThree st1
            (Deliver 2 (NextN (sample 2))) = Some st2
    /\ mergedResponse st2
       = Some (set_state Streaming
                 (combineSamples (mergedResponse st1) (sample 2)))
    /\ queries st2
       = queries st1 ++ [subRequest requestOfThree partitionOfThree (2 - 1)]
    /\ emitted st2 = emitted st1.
Proof.
  destruct (unsubscribe_stops_emissions_only (Err := string)
              combineSamples noLimit later requestOfThree partitionOfThree)
    as (_ & H & _).
  eexists.
  destruct (H (fun _ => eq_refl)
              (mkSched (Some (mkResponse [3%nat] Streaming)) [3; 2]%nat
                 [subRequest requestOfThree partitionOfThree 3;
                  subRequest requestOfThree partitionOfThree 2]
                 [NextN (mkResponse [3%nat] Streaming)] true)
              2%nat (sample 2))
    as (st2 & Hstep & Hm & Hq & He);
    [reflexivity|reflexivity|lia|reflexivity|].
  exists st2. split; [reflexivity|]. auto.
Defined.

End Scenarios.


End SchedulerFacts.

(** * More about the range partitioner *)

Module PartitionerMore.

Import Partitioner PartitionerFacts.

(** ** [expandTimeRange] *)

Lemma expandTimeRange_value (startTime endTime step : Z) :
  step <> 0 ->
  expandTimeRange startTime endTime step
  = Some (startTime - Z.rem startTime step,
          if negb (Z.rem endTime step =? 0)
          then endTime + (step - Z.rem endTime step)
          else endTime).
Proof.
  intros Hstep. unfold expandTimeRange, js_rem.
  destruct (Z.eqb_spec step 0); [contradiction|reflexivity].
Qed.

(** X1.  For times that are not negative, expansion moves each bound
    outwards by less than one step: the aligned range contains the range
    it comes from. *)
Theorem expandTimeRange_contains (startTime endTime step : Z) :
  1 <= step -> 0 <= startTime -> 0 <= endTime ->
  exists lo hi,
    expandTimeRange startTime endTime step = Some (lo, hi)
    /\ lo <= startTime < lo + step
    /\ endTime <= hi < endTime + step.
Proof.
  intros Hstep Hs He. rewrite expandTimeRange_value by lia.
  eexists _, _. split; [reflexivity|].
  pose proof (Z.rem_bound_pos startTime step Hs ltac:(lia)).
  pose proof (Z.rem_bound_pos endTime step He ltac:(lia)).
  destruct (Z.eqb_spec (Z.rem endTime step) 0); cbn [negb]; lia.
Qed.

Lemma expandTimeRange_contains_witness :
  exists lo hi,
    expandTimeRange 3 63 10 = Some (lo, hi)
    /\ lo <= 3 < lo + 10
    /\ 63 <= hi < 63 + 10.
Proof. apply (expandTimeRange_contains 3 63 10); lia. Defined.

(** X2.  For negative times that are not multiples of the step, the
    remainder of JavaScript is negative: the start is moved up, to the
    multiple of the step above it, and the end is moved up past the
    multiple above it, to the next one. *)
Theorem expandTimeRange_negative (startTime endTime step : Z) :
  1 <= step ->
  exists lo hi,
    expandTimeRange startTime endTime step = Some (lo, hi)
    /\ (startTime < 0 -> Z.rem startTime step <> 0 ->
        startTime < lo < startTime + step)
    /\ (endTime < 0 -> Z.rem endTime step <> 0 ->
        endTime + step < hi < endTime + 2 * step).
Proof.
  intros Hstep. rewrite expandTimeRange_value by lia.
  eexists _, _. split; [reflexivity|]. split.
  - intros Hneg Hrem.
    pose proof (Z.rem_bound_pos_neg startTime step ltac:(lia) ltac:(lia)).
    lia.
  - intros Hneg Hrem.
    pose proof (Z.rem_bound_pos_neg endTime step ltac:(lia) ltac:(lia)).
    destruct (Z.eqb_spec (Z.rem endTime step) 0); cbn [negb]; lia.
Qed.

Lemma expandTimeRange_negative_witness :
  exists lo hi,
    expandTimeRange (-13) (-3) 10 = Some (lo, hi)
    /\ (-13 < 0 -> Z.rem (-13) 10 <> 0 -> -13 < lo < -13 + 10)
    /\ (-3 < 0 -> Z.rem (-3) 10 <> 0 -> -3 + 10 < hi < -3 + 2 * 10).
Proof. apply (expandTimeRange_negative (-13) (-3) 10). lia. Defined.

Lemma expandTimeRange_multiples (startTime endTime step : Z) :
  step <> 0 -> (step | startTime) -> (step | endTime) ->
  expandTimeRange startTime endTime step = Some (startTime, endTime).
Proof.
  intros Hstep Hs He. rewrite expandTimeRange_value by exact Hstep.
  apply Z.rem_divide in Hs, He; try exact Hstep.
  rewrite Hs, He. cbn. do 2 f_equal. lia.
Qed.

(** X3.  Expansion is idempotent: bounds that come out of
    [expandTimeRange] are left as they are by it. *)
Theorem expandTimeRange_idempotent (startTime endTime step lo hi : Z) :
  expandTimeRange startTime endTime step = Some (lo, hi) ->
  expandTimeRange lo hi step = Some (lo, hi).
Proof.
  intros H. destruct (Z.eq_dec step 0) as [->|Hstep]; [discriminate|].
  destruct (expandTimeRange_aligned startTime endTime step Hstep)
    as (lo' & hi' & H' & Hlo & Hhi).
  rewrite H in H'. injection H' as <- <-.
  now apply expandTimeRange_multiples.
Qed.

Lemma expandTimeRange_idempotent_witness :
  expandTimeRange 0 70 10 = Some (0, 70).
Proof. apply (expandTimeRange_idempotent 3 63 10 0 70). reflexivity. Defined.

(** ** [getAllPoints] *)

Lemma gridPoints_ends (step lo hi : Z) :
  1 <= step -> lo <= hi -> (step | hi - lo) ->
  hd_error (gridPoints step lo (pointCount step lo hi)) = Some lo
  /\ last (gridPoints step lo (pointCount step lo hi)) 0 = hi
  /\ Z.of_nat (pointCount step lo hi) = (hi - lo) / step + 1.
Proof.
  intros Hstep Hle (z & Hz). unfold pointCount.
  destruct (Z.leb_spec lo hi); [|lia].
  rewrite Hz, Z.div_mul by lia. assert (0 <= z) by nia.
  replace (Z.to_nat (z + 1)) with (S (Z.to_nat z)) by lia.
  rewrite gridPoints_last. cbn [gridPoints hd_error].
  repeat split; lia.
Qed.

(** X4.  For a positive step and [start <= end], [getAllPoints] returns
    the points from the aligned start to the aligned end, both included,
    each one step after the one before it: [(hi - lo) / step + 1] points. *)
Theorem getAllPoints_progression (startTime endTime step : Z) (fuel : nat) :
  1 <= step -> startTime <= endTime ->
  (getRanges_fuel startTime endTime step <= fuel)%nat ->
  exists points lo hi,
    expandTimeRange startTime endTime step = Some (lo, hi)
    /\ getAllPoints fuel startTime endTime step = Some points
    /\ hd_error points = Some lo
    /\ last points 0 = hi
    /\ Z.of_nat (List.length points) = (hi - lo) / step + 1
    /\ progression step points.
Proof.
  intros Hstep Hle. unfold getRanges_fuel, getAllPoints.
  destruct (expandTimeRange_aligned startTime endTime step)
    as (lo & hi & Hexp & Hlo & Hhi); [lia|].
  rewrite Hexp. intros Hfuel.
  rewrite getAllPoints_loop_exact by lia. cbn [app].
  pose proof (expandTimeRange_ordered _ _ _ _ _ Hstep Hle Hexp) as Hord.
  destruct (gridPoints_ends step lo hi Hstep Hord) as (Hhd & Hlast & Hn);
    [now apply Z.divide_sub_r|].
  eexists _, lo, hi. split; [reflexivity|]. split; [reflexivity|].
  rewrite gridPoints_length.
  repeat split; auto using gridPoints_progression.
Qed.

Lemma getAllPoints_progression_witness :
  exists points lo hi,
    expandTimeRange 3 63 10 = Some (lo, hi)
    /\ getAllPoints 20 3 63 10 = Some points
    /\ hd_error points = Some lo
    /\ last points 0 = hi
    /\ Z.of_nat (List.length points) = (hi - lo) / 10 + 1
    /\ progression 10 points.
Proof.
  apply (getAllPoints_progression 3 63 10 20); [lia|lia|].
  vm_compute. lia.
Defined.

Lemma getAllPoints_loop_runs_on (step hi : Z) :
  step <= 0 ->
  forall fuel current result,
    current <= hi -> getAllPoints_loop fuel current hi step result = None.
Proof.
  intros Hstep. induction fuel as [|fuel IH]; intros current result Hle; cbn.
  - reflexivity.
  - destruct (Z.leb_spec current hi); [|lia]. apply IH. lia.
Qed.

(** X5.  For a negative step, when the aligned start is not after the
    aligned end, the loop of [getAllPoints] never reaches its exit: no
    number of iterations makes [getAllPoints], or [getRanges], return. *)
Theorem getRanges_negative_step_runs_on
    (startTime endTime step ideal lo hi : Z) :
  step < 0 -> 1 <= ideal ->
  expandTimeRange startTime endTime step = Some (lo, hi) -> lo <= hi ->
  forall fuel,
    getAllPoints fuel startTime endTime step = None
    /\ getRanges fuel startTime endTime step ideal = OutOfFuel.
Proof.
  intros Hstep Hideal Hexp Hle fuel.
  assert (Hpoints : getAllPoints fuel startTime endTime step = None).
  { unfold getAllPoints. rewrite Hexp.
    apply getAllPoints_loop_runs_on; lia. }
  split; [exact Hpoints|]. unfold getRanges.
  destruct (Z.ltb_spec ideal 1); [lia|]. now rewrite Hpoints.
Qed.

Lemma getRanges_negative_step_runs_on_witness :
  getAllPoints 1000 0 100 (-10) = None
  /\ getRanges 1000 0 100 (-10) 35 = OutOfFuel.
Proof.
  apply (getRanges_negative_step_runs_on 0 100 (-10) 35 0 100);
    [lia|lia|reflexivity|lia].
Defined.

(** ** The ranges of [getRanges] *)

Lemma nth_error_last {A : Type} (l : list A) (x d : A) :
  nth_error l (List.length l - 1) = Some x -> last l d = x.
Proof.
  induction l as [|y l IH]; [discriminate|].
  destruct l as [|z l].
  - cbn. congruence.
  - cbn [List.length]. replace (S (S (List.length l)) - 1)%nat
      with (S (List.length (z :: l) - 1)) by (cbn; lia).
    cbn [nth_error]. intros H. apply IH in H. exact H.
Qed.

Lemma concat_last (groups : list (list Z)) :
  Forall (fun g => g <> []) groups -> groups <> [] ->
  last (concat groups) 0 = last (last groups []) 0.
Proof.
  induction 1 as [|g groups Hg Hne IH]; [congruence|]. intros _.
  destruct groups as [|g' groups].
  - cbn. now rewrite app_nil_r.
  - change (concat (g :: g' :: groups)) with (g ++ concat (g' :: groups)).
    change (last (g :: g' :: groups) []) with (last (g' :: groups) []).
    rewrite <- IH by discriminate.
    assert (Hc : concat (g' :: groups) <> []).
    { inversion Hne as [|? ? Hg' _]; subst. cbn.
      destruct g'; [congruence|discriminate]. }
    destruct (concat (g' :: groups)) as [|c cs] using rev_ind;
      [congruence|].
    now rewrite app_assoc, !last_last.
Qed.

Lemma last_map_bounds (groups : list (list Z)) :
  last (map bounds groups) (bounds []) = bounds (last groups []).
Proof.
  induction groups as [|g groups IH]; [reflexivity|].
  destruct groups as [|g' groups]; [reflexivity|]. exact IH.
Qed.

Lemma concat_length_full {A : Type} (size : nat) (g : list A)
    (groups : list (list A)) :
  Forall (fun g' => List.length g' = size) groups ->
  List.length (concat (g :: groups))
  = (List.length g + size * List.length groups)%nat.
Proof.
  intros Hall. cbn [concat]. rewrite length_app. f_equal.
  induction Hall as [|g' groups Hg' _ IH]; cbn; [lia|].
  rewrite length_app, IH, Hg'. lia.
Qed.

(** What the shape of the result says about the ranges one by one. *)
Lemma getRanges_ranges (fuel : nat) (startTime endTime step ideal : Z)
    (ranges : list (Z * Z)) :
  1 <= step ->
  getRanges fuel startTime endTime step ideal = Returns ranges ->
  exists lo hi,
    expandTimeRange startTime endTime step = Some (lo, hi)
    /\ (step | lo) /\ (step | hi)
    /\ linked step ranges
    /\ (forall i r, nth_error ranges i = Some r ->
          lo <= fst r <= snd r
          /\ (step | fst r) /\ (step | snd r)
          /\ snd r - fst r <= (pointsInChunk ideal step - 1) * step
          /\ ((0 < i)%nat ->
              snd r - fst r = (pointsInChunk ideal step - 1) * step))
    /\ (forall r, nth_error ranges 0 = Some r -> fst r = lo)
    /\ (forall r, lo <= hi ->
          nth_error ranges (List.length ranges - 1) = Some r -> snd r = hi)
    /\ (ranges = [] <-> hi < lo)
    /\ (ranges <> [] ->
        exists first,
          (1 <= first <= pointsInChunk ideal step)
          /\ Z.of_nat (pointCount step lo hi)
             = first + pointsInChunk ideal step
                       * (Z.of_nat (List.length ranges) - 1)).
Proof.
  intros Hstep Hret.
  destruct (getRanges_shape _ _ _ _ _ _ Hstep Hret)
    as (lo & hi & groups & Hexp & Hlo & Hhi & -> & Hconcat & Hne & Hfull).
  exists lo, hi. split; [exact Hexp|]. split; [exact Hlo|].
  split; [exact Hhi|].
  assert (Hprog : progression step (concat groups))
    by (rewrite Hconcat; apply gridPoints_progression).
  destruct (groups_progression step groups Hne Hprog) as (Hall & Hlinked).
  split; [exact Hlinked|].
  pose proof (pointsInChunk_pos ideal step) as Hpos.
  set (size := pointsInChunk ideal step) in *.
  assert (Hgrid : forall g p, In g groups -> In p g ->
                    lo <= p /\ (step | p)).
  { intros g p Hg Hp.
    assert (Hin : In p (concat groups)) by (apply in_concat; eauto).
    rewrite Hconcat in Hin. apply gridPoints_In in Hin.
    destruct Hin as (i & _ & ->). split; [nia|].
    apply Z.divide_add_r; [exact Hlo|apply Z.divide_factor_r]. }
  split; [|split; [|split; [|split]]].
  - intros i r Hr. rewrite nth_error_map in Hr.
    destruct (nth_error groups i) as [g|] eqn:Hg; [|discriminate].
    injection Hr as <-.
    pose proof (nth_error_In _ _ Hg) as Hin.
    rewrite Forall_forall in Hne, Hall.
    pose proof (group_last step g (Hne g Hin) (Hall g Hin)) as Hlast.
    destruct (full_but_first_nth _ _ _ _ Hfull Hg) as [Hb Heq].
    assert (Hhd : In (hd 0 g) g)
      by (destruct g; [elim (Hne _ Hin); reflexivity|now left]).
    assert (Hla : In (last g 0) g).
    { destruct g as [|x g] using rev_ind;
        [elim (Hne _ Hin); reflexivity|].
      rewrite last_last. apply in_or_app. right. now left. }
    destruct (Hgrid g _ Hin Hhd) as [H1 H2].
    destruct (Hgrid g _ Hin Hla) as [_ H3].
    cbn [bounds fst snd]. rewrite Hlast.
    split; [nia|]. split; [exact H2|].
    split; [rewrite <- Hlast; exact H3|]. split; [nia|].
    intros Hi. rewrite (Heq Hi). lia.
  - intros r Hr. destruct groups as [|g groups]; [discriminate|].
    cbn in Hr. injection Hr as <-. cbn [bounds fst].
    inversion Hne as [|? ? Hg _]; subst.
    assert (Hhd : hd_error (concat (g :: groups)) = hd_error g)
      by (cbn; destruct g; [congruence|reflexivity]).
    rewrite Hconcat in Hhd. destruct g as [|x g]; [congruence|].
    cbn [hd]. destruct (pointCount step lo hi); cbn in Hhd; congruence.
  - intros r Hord Hr. rewrite <- (nth_error_last _ _ (bounds []) Hr).
    destruct groups as [|g groups]; [discriminate|].
    rewrite last_map_bounds. cbn [bounds snd].
    rewrite <- concat_last by (auto; discriminate). rewrite Hconcat.
    apply gridPoints_ends; [exact Hstep|exact Hord|].
    now apply Z.divide_sub_r.
  - destruct (Z.le_gt_cases lo hi) as [Hord|Hord].
    + rewrite (pointCount_next step lo hi Hstep Hord) in Hconcat.
      split; [|lia]. destruct groups; discriminate.
    + split; [intros _; lia|]. intros _.
      rewrite pointCount_empty in Hconcat by lia.
      destruct groups as [|g groups]; [reflexivity|].
      inversion Hne as [|? ? Hg _]; subst. cbn in Hconcat.
      destruct g; [congruence|discriminate].
  - intros Hnonempty.
    destruct groups as [|g groups]; [elim Hnonempty; reflexivity|].
    destruct Hfull as [Hb Hrest]. exists (Z.of_nat (List.length g)).
    split; [lia|].
    pose proof (concat_length_full _ g groups Hrest) as Hlen.
    rewrite Hconcat, gridPoints_length in Hlen. rewrite Hlen.
    cbn [map List.length]. rewrite length_map.
    rewrite Nat2Z.inj_add, Nat2Z.inj_mul, Z2Nat.id by lia. lia.
Qed.


(** X6.  For a positive step, [getRanges] returns the empty list exactly
    when the aligned end is before the aligned start, which takes
    [start > end]. *)
Theorem getRanges_empty_iff (startTime endTime step ideal : Z)
    (fuel : nat) :
  1 <= step -> 1 <= ideal ->
  (getRanges_fuel startTime endTime step <= fuel)%nat ->
  exists ranges lo hi,
    getRanges fuel startTime endTime step ideal = Returns ranges
    /\ expandTimeRange startTime endTime step = Some (lo, hi)
    /\ (ranges = [] <-> hi < lo)
    /\ (ranges = [] -> endTime < startTime).
Proof.
  intros Hstep Hideal Hfuel.
  destruct (getRanges_returns fuel startTime endTime step ideal
              Hstep Hideal Hfuel) as (ranges & Hret).
  destruct (getRanges_ranges _ _ _ _ _ _ Hstep Hret)
    as (lo & hi & Hexp & _ & _ & _ & _ & _ & _ & Hempty & _).
  exists ranges, lo, hi. repeat split; auto; try apply Hempty.
  intros Hnil. apply Hempty in Hnil.
  destruct (Z.le_gt_cases startTime endTime) as [Hle|Hgt]; [|lia].
  pose proof (expandTimeRange_ordered _ _ _ _ _ Hstep Hle Hexp). lia.
Qed.

Lemma getRanges_empty_iff_witness :
  exists ranges lo hi,
    getRanges 3 25 3 10 35 = Returns ranges
    /\ expandTimeRange 25 3 10 = Some (lo, hi)
    /\ (ranges = [] <-> hi < lo)
    /\ (ranges = [] -> 3 < 25).
Proof.
  apply (getRanges_empty_iff 25 3 10 35 3); [lia|lia|].
  vm_compute. lia.
Defined.

(** X7.  For a positive step and [start <= end], the first range starts
    at the aligned start and the last range ends at the aligned end. *)
Theorem getRanges_endpoints (startTime endTime step ideal : Z)
    (fuel : nat) :
  1 <= step -> 1 <= ideal -> startTime <= endTime ->
  (getRanges_fuel startTime endTime step <= fuel)%nat ->
  exists ranges lo hi first final,
    getRanges fuel startTime endTime step ideal = Returns ranges
    /\ expandTimeRange startTime endTime step = Some (lo, hi)
    /\ nth_error ranges 0 = Some first /\ fst first = lo
    /\ nth_error ranges (List.length ranges - 1) = Some final
    /\ snd final = hi.
Proof.
  intros Hstep Hideal Hle Hfuel.
  destruct (getRanges_returns fuel startTime endTime step ideal
              Hstep Hideal Hfuel) as (ranges & Hret).
  destruct (getRanges_ranges _ _ _ _ _ _ Hstep Hret)
    as (lo & hi & Hexp & _ & _ & _ & _ & Hfirst & Hfinal & Hempty & _).
  pose proof (expandTimeRange_ordered _ _ _ _ _ Hstep Hle Hexp) as Hord.
  assert (Hne : ranges <> []) by (intros Hnil; apply Hempty in Hnil; lia).
  destruct (nth_error ranges 0) as [first|] eqn:H0;
    [|apply nth_error_None in H0; destruct ranges; [congruence|cbn in H0; lia]].
  destruct (nth_error ranges (List.length ranges - 1)) as [final|] eqn:Hl;
    [|apply nth_error_None in Hl; destruct ranges; [congruence|cbn in Hl; lia]].
  exists ranges, lo, hi, first, final. repeat split; auto.
Qed.

Lemma getRanges_endpoints_witness :
  exists ranges lo hi first final,
    getRanges 20 3 63 10 35 = Returns ranges
    /\ expandTimeRange 3 63 10 = Some (lo, hi)
    /\ nth_error ranges 0 = Some first /\ fst first = lo
    /\ nth_error ranges (List.length ranges - 1) = Some final
    /\ snd final = hi.
Proof.
  apply (getRanges_endpoints 3 63 10 35 20); [lia|lia|lia|].
  vm_compute. lia.
Defined.

(** X8.  For a positive step, the number of ranges is the number of grid
    points divided by the number of points in a chunk, rounded up. *)
Theorem getRanges_count (startTime endTime step ideal : Z) (fuel : nat) :
  1 <= step -> 1 <= ideal ->
  (getRanges_fuel startTime endTime step <= fuel)%nat ->
  exists ranges lo hi,
    getRanges fuel startTime endTime step ideal = Returns ranges
    /\ expandTimeRange startTime endTime step = Some (lo, hi)
    /\ Z.of_nat (List.length ranges)
       = (Z.of_nat (pointCount step lo hi) + pointsInChunk ideal step - 1)
         / pointsInChunk ideal step.
Proof.
  intros Hstep Hideal Hfuel.
  destruct (getRanges_returns fuel startTime endTime step ideal
              Hstep Hideal Hfuel) as (ranges & Hret).
  destruct (getRanges_ranges _ _ _ _ _ _ Hstep Hret)
    as (lo & hi & Hexp & _ & _ & _ & _ & _ & _ & Hempty & Hcount).
  exists ranges, lo, hi. split; [exact Hret|]. split; [exact Hexp|].
  pose proof (pointsInChunk_pos ideal step) as Hpos.
  set (size := pointsInChunk ideal step) in *.
  destruct ranges as [|r ranges].
  - rewrite pointCount_empty by (apply Hempty; reflexivity).
    cbn [List.length Z.of_nat]. rewrite Z.div_small; lia.
  - destruct Hcount as (first & Hfirst & ->); [discriminate|].
    apply Z.div_unique with (r := first - 1); [lia|].
    cbn [List.length]. lia.
Qed.

Lemma getRanges_count_witness :
  exists ranges lo hi,
    getRanges 20 3 63 10 35 = Returns ranges
    /\ expandTimeRange 3 63 10 = Some (lo, hi)
    /\ Z.of_nat (List.length ranges)
       = (Z.of_nat (pointCount 10 lo hi) + pointsInChunk 35 10 - 1)
         / pointsInChunk 35 10.
Proof.
  apply (getRanges_count 3 63 10 35 20); [lia|lia|].
  vm_compute. lia.
Defined.

Lemma pointsInChunk_span (ideal step : Z) :
  1 <= step -> 1 <= ideal ->
  (pointsInChunk ideal step - 1) * step < ideal.
Proof.
  intros Hstep Hideal. unfold pointsInChunk.
  pose proof (Z.quot_rem' ideal step) as Hq.
  pose proof (Z.rem_bound_pos ideal step ltac:(lia) ltac:(lia)) as Hr.
  destruct (Z.max_spec (Z.quot ideal step) 1) as [[_ ->]|[_ ->]]; nia.
Qed.

(** X9.  For a positive step, a range is never longer than the ideal
    size: it spans at most [pointsInChunk - 1] steps, which is less than
    [idealRangeSize]. *)
Theorem getRanges_span (startTime endTime step ideal : Z) (fuel : nat) :
  1 <= step -> 1 <= ideal ->
  (getRanges_fuel startTime endTime step <= fuel)%nat ->
  exists ranges,
    getRanges fuel startTime endTime step ideal = Returns ranges
    /\ forall r, In r ranges ->
         0 <= snd r - fst r <= (pointsInChunk ideal step - 1) * step
         /\ snd r - fst r < ideal.
Proof.
  intros Hstep Hideal Hfuel.
  destruct (getRanges_returns fuel startTime endTime step ideal
              Hstep Hideal Hfuel) as (ranges & Hret).
  destruct (getRanges_ranges _ _ _ _ _ _ Hstep Hret)
    as (lo & hi & _ & _ & _ & _ & Heach & _).
  exists ranges. split; [exact Hret|]. intros r Hr.
  apply In_nth_error in Hr. destruct Hr as (i & Hr).
  destruct (Heach i r Hr) as (Hb & _ & _ & Hspan & _).
  pose proof (pointsInChunk_span ideal step Hstep Hideal). lia.
Qed.

Lemma getRanges_span_witness :
  exists ranges,
    getRanges 20 3 63 10 35 = Returns ranges
    /\ forall r, In r ranges ->
         0 <= snd r - fst r <= (pointsInChunk 35 10 - 1) * 10
         /\ snd r - fst r < 35.
Proof.
  apply (getRanges_span 3 63 10 35 20); [lia|lia|].
  vm_compute. lia.
Defined.

(** X10.  For a positive step and [start <= end], a grid that has no more
    points than a chunk holds is not split: the result is the one range
    from the aligned start to the aligned end. *)
Theorem getRanges_single (startTime endTime step ideal lo hi : Z)
    (fuel : nat) :
  1 <= step -> 1 <= ideal -> startTime <= endTime ->
  (getRanges_fuel startTime endTime step <= fuel)%nat ->
  expandTimeRange startTime endTime step = Some (lo, hi) ->
  Z.of_nat (pointCount step lo hi) <= pointsInChunk ideal step ->
  getRanges fuel startTime endTime step ideal = Returns [(lo, hi)].
Proof.
  intros Hstep Hideal Hle Hfuel Hexp Hfew.
  destruct (getRanges_returns fuel startTime endTime step ideal
              Hstep Hideal Hfuel) as (ranges & Hret).
  rewrite Hret. f_equal.
  destruct (getRanges_ranges _ _ _ _ _ _ Hstep Hret)
    as (lo' & hi' & Hexp' & _ & _ & _ & _ & Hfirst & Hfinal & Hempty & Hcount).
  rewrite Hexp in Hexp'. injection Hexp' as <- <-.
  pose proof (expandTimeRange_ordered _ _ _ _ _ Hstep Hle Hexp) as Hord.
  destruct ranges as [|r ranges];
    [apply proj1 in Hempty; specialize (Hempty eq_refl); lia|].
  destruct Hcount as (first & Hb & Hn); [discriminate|].
  pose proof (pointsInChunk_pos ideal step) as Hpos.
  destruct ranges as [|r' ranges].
  - specialize (Hfirst r eq_refl). specialize (Hfinal r Hord eq_refl).
    destruct r as [a b]. cbn in *. congruence.
  - cbn [List.length] in Hn. nia.
Qed.

Lemma getRanges_single_witness :
  getRanges 20 3 13 10 35 = Returns [(0, 20)].
Proof.
  apply (getRanges_single 3 13 10 35 0 20 20);
    [lia|lia|lia|vm_compute; lia|reflexivity|vm_compute; discriminate].
Defined.

(** X11.  For a positive step and [start <= end], the ranges are those
    counted off from the aligned end: the range that has [j] ranges after
    it ends [j] chunks before the aligned end, and starts
    [pointsInChunk - 1] steps before its end, or at the aligned start if
    that comes later. *)
Theorem getRanges_closed_form (startTime endTime step ideal : Z)
    (fuel : nat) :
  1 <= step -> 1 <= ideal -> startTime <= endTime ->
  (getRanges_fuel startTime endTime step <= fuel)%nat ->
  exists ranges lo hi,
    getRanges fuel startTime endTime step ideal = Returns ranges
    /\ expandTimeRange startTime endTime step = Some (lo, hi)
    /\ forall i r, nth_error ranges i = Some r ->
         snd r = hi - Z.of_nat (List.length ranges - 1 - i)
                      * pointsInChunk ideal step * step
         /\ fst r = Z.max lo (snd r - (pointsInChunk ideal step - 1) * step).
Proof.
  intros Hstep Hideal Hle Hfuel.
  destruct (getRanges_returns fuel startTime endTime step ideal
              Hstep Hideal Hfuel) as (ranges & Hret).
  destruct (getRanges_ranges _ _ _ _ _ _ Hstep Hret)
    as (lo & hi & Hexp & _ & _ & Hlinked & Heach & Hfirst & Hfinal & _).
  pose proof (expandTimeRange_ordered _ _ _ _ _ Hstep Hle Hexp) as Hord.
  exists ranges, lo, hi. split; [exact Hret|]. split; [exact Hexp|].
  set (size := pointsInChunk ideal step) in *.
  assert (Hend : forall d i r,
    (i + d = List.length ranges - 1)%nat -> nth_error ranges i = Some r ->
    snd r = hi - Z.of_nat d * size * step).
  { induction d as [|d IH]; intros i r Hi Hr.
    - rewrite Nat.add_0_r in Hi. subst i.
      rewrite (Hfinal r Hord Hr). lia.
    - destruct (nth_error ranges (S i)) as [r'|] eqn:Hr';
        [|apply nth_error_None in Hr'; lia].
      pose proof (linked_adjacent step ranges Hlinked i r r' Hr Hr').
      destruct (Heach (S i) r' Hr') as (_ & _ & _ & _ & Hfull).
      specialize (Hfull ltac:(lia)).
      pose proof (IH (S i) r' ltac:(lia) Hr'). nia. }
  intros i r Hr.
  assert (Hi : (i < List.length ranges)%nat)
    by (apply nth_error_Some; congruence).
  split; [apply (Hend _ i r); [lia|exact Hr]|].
  destruct (Heach i r Hr) as (Hb & _ & _ & Hspan & Hfull).
  destruct i as [|i].
  - rewrite (Hfirst r Hr) in *. lia.
  - specialize (Hfull ltac:(lia)). lia.
Qed.

Lemma getRanges_closed_form_witness :
  exists ranges lo hi,
    getRanges 20 3 63 10 35 = Returns ranges
    /\ expandTimeRange 3 63 10 = Some (lo, hi)
    /\ forall i r, nth_error ranges i = Some r ->
         snd r = hi - Z.of_nat (List.length ranges - 1 - i)
                      * pointsInChunk 35 10 * 10
         /\ fst r = Z.max lo (snd r - (pointsInChunk 35 10 - 1) * 10).
Proof.
  apply (getRanges_closed_form 3 63 10 35 20); [lia|lia|lia|].
  vm_compute. lia.
Defined.

(** X12.  The result depends on the start and the end through their
    aligned values only: splitting the aligned range gives what splitting
    the range itself gives. *)
Theorem getRanges_of_aligned (startTime endTime step ideal lo hi : Z)
    (fuel : nat) :
  expandTimeRange startTime endTime step = Some (lo, hi) ->
  getRanges fuel lo hi step ideal
  = getRanges fuel startTime endTime step ideal.
Proof.
  intros Hexp. destruct (Z.eq_dec step 0) as [->|Hstep]; [discriminate|].
  destruct (expandTimeRange_aligned startTime endTime step Hstep)
    as (lo' & hi' & H' & Hlo & Hhi).
  rewrite Hexp in H'. injection H' as <- <-.
  unfold getRanges, getAllPoints.
  rewrite Hexp, (expandTimeRange_multiples lo hi step Hstep Hlo Hhi).
  reflexivity.
Qed.

Lemma getRanges_of_aligned_witness :
  getRanges 20 0 70 10 35 = getRanges 20 3 63 10 35.
Proof. apply (getRanges_of_aligned 3 63 10 35 0 70 20). reflexivity. Defined.


End PartitionerMore.

(** * More about the scheduler *)

Module SchedulerMore.

Import Scheduler SchedulerFacts.

Section Runs.

Context {Data Extra Err : Type}.

Variable combineResponses :
  option (DataQueryResponse Data) -> DataQueryResponse Data ->
  DataQueryResponse Data.
Variable resultLimitReached :
  DataQueryRequest Extra -> DataQueryResponse Data -> bool.
Variable runQuery :
  DataQueryRequest Extra -> list (notification (DataQueryResponse Data) Err).
Variable request : DataQueryRequest Extra.
Variable partition : list TimeRange.

Local Abbreviation sched := (@Scheduler.sched Data Extra Err).
Local Abbreviation event := (@Scheduler.event Data Err).
Local Abbreviation step :=
  (@Scheduler.step Data Extra Err combineResponses resultLimitReached
     runQuery request partition).
Local Abbreviation run :=
  (@Scheduler.run Data Extra Err combineResponses resultLimitReached
     runQuery request partition).
Local Abbreviation on_value :=
  (@Scheduler.on_value Data Extra Err combineResponses resultLimitReached
     runQuery request partition).
Local Abbreviation next :=
  (@Scheduler.next Data Extra Err combineResponses resultLimitReached
     runQuery request partition).
Local Abbreviation subscribe :=
  (@Scheduler.subscribe Data Extra Err combineResponses resultLimitReached
     runQuery request partition).
Local Abbreviation subRequest :=
  (@Scheduler.subRequest Extra request partition).
Local Abbreviation merges := (@Scheduler.merges Data combineResponses).
Local Abbreviation merged_after :=
  (@Scheduler.merged_after Data combineResponses).
Local Abbreviation limit := (resultLimitReached request).
Local Abbreviation waits := (forall q, runQuery q = []).

(** X13.  With no partition at all, subscribing still issues one query,
    and only one, whatever the datasource: it is tagged [requestId_0] and
    has no range.  Its answer, be it later or at once, is emitted as
    [Done], and nothing follows. *)
Theorem empty_partition_one_query (p : DataQueryResponse Data) :
  partition = [] ->
  queries subscribe
  = [mkRequest (requestId request ++ "_0") None (intervalMs request)
               (others request)]
  /\ (waits ->
      exists st : sched,
        run subscribe (answers 0 [p]) = Some st
        /\ queries st = queries subscribe
        /\ emitted st = [NextN (set_state Done (combineResponses None p))]
        /\ marks (emitted st) = [Some Done]
        /\ forall (evs : list event) (st' : sched),
             run st evs = Some st' ->
             queries st' = queries st /\ emitted st' = emitted st)
  /\ (runQuery (subRequest 0) = [NextN p; CompleteN] ->
      emitted subscribe = [NextN (set_state Done (combineResponses None p))]
      /\ marks (emitted subscribe) = [Some Done]
      /\ forall (evs : list event) (st' : sched),
           run subscribe evs = Some st' ->
           queries st' = queries subscribe
           /\ emitted st' = emitted subscribe).
Proof.
  intros Hempty.
  assert (Hsub : subscribe
                 = feed (on_value 0) 0 (runQuery (subRequest 0))
                     (mkSched None [] [subRequest 0] [] false)).
  { unfold Scheduler.subscribe, totalRequests. rewrite Hempty.
    cbn [List.length]. rewrite next_eq. reflexivity. }
  split; [|split].
  - rewrite Hsub.
    assert (H : queries
                  (feed (on_value 0) 0 (runQuery (subRequest 0))
                     (mkSched None [] [subRequest 0] [] false))
                = [subRequest 0]).
    { apply (feed_invariant combineResponses resultLimitReached request
               (fun st => queries st = [subRequest 0]) (fun _ => True)).
      - intros N st _ H. exact H.
      - intros s q st _ H. exact H.
      - intros s r st _ H. unfold subscriber_next.
        destruct (closed st); exact H.
      - exact I.
      - intros _ H. lia.
      - reflexivity. }
    rewrite H, Hempty. reflexivity.
  - intros Hwaits.
    destruct (run_answers_until combineResponses resultLimitReached
                runQuery request partition Hwaits [] subscribe 0 p)
      as (st & Hrun & Hidle & _ & Hq & He & _);
      try (rewrite Hsub, Hwaits; reflexivity).
    + right. reflexivity.
    + constructor.
    + right. cbn. lia.
    + exists st. split; [exact Hrun|].
      cbn [map countdown List.length] in Hq. rewrite app_nil_r in Hq.
      split; [exact Hq|].
      assert (He' : emitted st
                    = [NextN (set_state Done (combineResponses None p))])
        by (rewrite He, Hsub, Hwaits; reflexivity).
      split; [exact He'|]. split; [rewrite He'; reflexivity|].
      intros evs st' Hrun'.
      destruct (run_idle _ _ _ _ _ evs st st' Hidle Hrun') as (_ & H1 & H2).
      auto.
  - intros Hnow.
    assert (Hst : subscribe
              = mkSched (Some (set_state Done (combineResponses None p))) []
                  [subRequest 0]
                  [NextN (set_state Done (combineResponses None p))]
                  false).
    { rewrite Hsub, Hnow. cbn [feed].
      rewrite on_value_unfold_done; [reflexivity|left; lia]. }
    rewrite Hst. cbn [emitted queries]. split; [reflexivity|].
    split; [reflexivity|].
    intros evs st' Hrun'.
    apply (run_idle combineResponses resultLimitReached runQuery request
             partition) in Hrun'; [|reflexivity].
    destruct Hrun' as (_ & H1 & H2). auto.
Qed.

(** X14.  Sub-queries that answer once, later: as long as the limit is
    not reached, each answer is merged and emitted as [Streaming] and the
    next older partition is queried; the answer on which the limit is
    reached, or the answer of the oldest partition, is emitted as [Done],
    and nothing follows.  The queries are those of the newest partitions,
    as many as there were answers. *)
Theorem run_until_limit (responses : list (DataQueryResponse Data))
    (p : DataQueryResponse Data) :
  waits ->
  (List.length responses < List.length partition)%nat ->
  Forall (fun m => limit m = false) (merges None responses) ->
  limit (combineResponses (merged_after None responses) p) = true
  \/ List.length partition = (List.length responses + 1)%nat ->
  exists st : sched,
    run subscribe (answers (List.length partition) (responses ++ [p]))
    = Some st
    /\ queries st
       = map subRequest
           (countdown (List.length partition) (List.length responses + 1))
    /\ emitted st
       = map (fun m => NextN (set_state Streaming m)) (merges None responses)
         ++ [NextN (set_state Done
                      (combineResponses (merged_after None responses) p))]
    /\ marks (emitted st)
       = repeat (Some Streaming) (List.length responses) ++ [Some Done]
    /\ mergedResponse st
       = Some (set_state Done
                 (combineResponses (merged_after None responses) p))
    /\ forall (evs : list event) (st' : sched),
         run st evs = Some st' ->
         queries st' = queries st /\ emitted st' = emitted st.
Proof.
  intros Hwaits Hlen Hfalse Hlast.
  pose proof (subscribe_waits combineResponses resultLimitReached runQuery
                request partition Hwaits) as Hsub.
  destruct (run_answers_until combineResponses resultLimitReached runQuery
              request partition Hwaits responses subscribe
              (List.length partition) p)
    as (st & Hrun & Hidle & _ & Hq & He & Hm).
  - rewrite Hsub. reflexivity.
  - rewrite Hsub. reflexivity.
  - left. exact Hlen.
  - rewrite Hsub. exact Hfalse.
  - rewrite Hsub. destruct Hlast as [H|H]; [left; exact H|right; lia].
  - rewrite Hsub in Hq, He, Hm. cbn [queries emitted mergedResponse app] in *.
    exists st. split; [exact Hrun|].
    split; [|split; [exact He|split; [|split]]].
    + rewrite Hq, Nat.add_1_r. reflexivity.
    + rewrite He, marks_app, marks_streaming.
      now rewrite (merges_length combineResponses).
    + exact Hm.
    + intros evs st' Hrun'.
      destruct (run_idle _ _ _ _ _ evs st st' Hidle Hrun') as (_ & H1 & H2).
      auto.
Qed.

Local Abbreviation marked st :=
  ((forall n, In n (emitted st) ->
      exists r, n = NextN r /\ (state r = Streaming \/ state r = Done))
   /\ (forall r, mergedResponse st = Some r ->
         state r = Streaming \/ state r = Done)).

Lemma marked_merged (s : LoadingState) (r : DataQueryResponse Data)
    (st : sched) :
  s = Streaming \/ s = Done -> marked st ->
  marked (set_merged (set_state s r) st).
Proof.
  intros Hs [He Hm]. split; [exact He|].
  intros r' [= <-]. exact Hs.
Qed.

Lemma marked_emit (s : LoadingState) (r : DataQueryResponse Data)
    (st : sched) :
  s = Streaming \/ s = Done -> marked st ->
  marked (subscriber_next (set_state s r) st).
Proof.
  intros Hs [He Hm]. unfold subscriber_next.
  destruct (closed st); [split; assumption|]. split; [|exact Hm].
  cbn. intros n Hn. apply in_app_or in Hn.
  destruct Hn as [Hn|[<-|[]]]; [auto|].
  eexists. split; [reflexivity|]. exact Hs.
Qed.

(** X15.  Whatever the sub-queries do, at once or later, what the
    scheduler emits is a response marked [Streaming] or [Done], and so is
    the accumulator it holds: no response is ever marked [Error],
    [Loading] or [NotStarted] by it. *)
Theorem emitted_streaming_or_done (evs : list event) (st : sched) :
  run subscribe evs = Some st ->
  (forall n, In n (emitted st) ->
     exists r, n = NextN r /\ (state r = Streaming \/ state r = Done))
  /\ (forall r, mergedResponse st = Some r ->
        state r = Streaming \/ state r = Done).
Proof.
  apply (run_invariant combineResponses resultLimitReached runQuery request
           partition (fun st => marked st) (fun _ => True) (fun _ => True)).
  - intros N st1 _ H. exact H.
  - intros N st1 _ H. exact H.
  - intros s p st1. apply marked_merged.
  - intros s r st1. apply marked_emit.
  - auto.
  - intros N st1 H. exact H.
  - intros st1 H. exact H.
  - auto.
  - apply Forall_forall. auto.
  - unfold Scheduler.subscribe.
    apply (next_invariant combineResponses resultLimitReached runQuery
             request partition (fun st => marked st) (fun _ => True)).
    + intros N st1 _ H. exact H.
    + intros N st1 _ H. exact H.
    + intros s p st1. apply marked_merged.
    + intros s r st1. apply marked_emit.
    + auto.
    + exact I.
    + split; [intros n []|discriminate].
Qed.

(** X17.  With sub-queries that answer later, and while the caller stays
    subscribed, every value of a sub-query gives one emission, and at most
    one new query. *)
Theorem one_emission_per_value (evs : list event) :
  waits ->
  forall st st' : sched,
    closed st = false ->
    Forall (fun ev => ev <> Unsubscribe) evs ->
    run st evs = Some st' ->
    List.length (emitted st')
    = (List.length (emitted st)
       + List.length (filter brings_value evs))%nat
    /\ (List.length (queries st')
        <= List.length (queries st)
           + List.length (filter brings_value evs))%nat.
Proof.
  intros Hwaits.
  induction evs as [|ev evs IH]; intros st st' Hclosed Hevs; cbn.
  - intros [= <-]. lia.
  - inversion Hevs as [|? ? Hev Hevs']; subst.
    destruct (step st ev) as [st1|] eqn:Hstep; [|discriminate].
    intros Hrun.
    destruct ev as [requestN [p|e|]|]; [| | |congruence]; cbn in Hstep;
      (destruct (is_open requestN st); [|discriminate]);
      injection Hstep as <-; cbn [brings_value List.length].
    + destruct (on_value_cases combineResponses resultLimitReached runQuery
                  request partition Hwaits requestN p st)
        as (Hc & (s & _ & He) & Hq). cbv zeta in Hc, He, Hq.
      rewrite Hclosed in Hc, He.
      destruct (IH _ st' Hc Hevs' Hrun) as (-> & Hle).
      rewrite He, length_app in *. cbn [List.length].
      split; [lia|].
      destruct Hq as [(Hq & _)|(Hq & _)]; rewrite Hq in Hle;
        rewrite ?length_app in Hle; cbn [List.length] in Hle; lia.
    + exact (IH (on_end requestN st) st' Hclosed Hevs' Hrun).
    + exact (IH (on_end requestN st) st' Hclosed Hevs' Hrun).
Qed.

(** X18.  With sub-queries that answer later: one that brings two values,
    the limit not reached on either, makes the next older partition be
    queried twice. *)
Theorem two_values_two_queries (st : sched) (requestN : nat)
    (p1 p2 : DataQueryResponse Data) :
  waits ->
  is_open requestN st = true -> (1 < requestN)%nat ->
  limit (combineResponses (mergedResponse st) p1) = false ->
  limit (combineResponses
           (Some (set_state Streaming
                    (combineResponses (mergedResponse st) p1))) p2)
  = false ->
  exists st' : sched,
    run st [Deliver requestN (NextN p1); Deliver requestN (NextN p2)]
    = Some st'
    /\ queries st'
       = queries st
         ++ [subRequest (requestN - 1); subRequest (requestN - 1)].
Proof.
  intros Hwaits Hopen HN H1 H2.
  destruct (on_value_streaming combineResponses resultLimitReached runQuery
              request partition Hwaits requestN p1 st HN H1)
    as (Hm & Hs & Hq & _).
  cbv zeta in *.
  assert (Hopen1 : is_open requestN (on_value requestN p1 st) = true).
  { unfold is_open in *. rewrite Hs, existsb_app, Hopen. reflexivity. }
  rewrite <- Hm in H2.
  destruct (on_value_streaming combineResponses resultLimitReached runQuery
              request partition Hwaits requestN p2
              (on_value requestN p1 st) HN H2)
    as (_ & _ & Hq2 & _).
  cbv zeta in *.
  rewrite (run_step _ _ _ _ _ _ _ _ _
             (step_value _ _ _ _ _ _ p1 st Hopen)).
  rewrite (run_step _ _ _ _ _ _ _ _ _
             (step_value _ _ _ _ _ _ p2 _ Hopen1)).
  eexists. split; [reflexivity|]. rewrite Hq2, Hq, <- app_assoc.
  reflexivity.
Qed.

Lemma marks_rev_streaming (l : list (DataQueryResponse Data)) :
  marks (Err := Err)
    (rev (map (fun m => NextN (set_state Streaming m)) l))
  = repeat (Some Streaming) (List.length l).
Proof.
  induction l as [|m l IH]; cbn [map rev List.length repeat];
    [reflexivity|].
  rewrite marks_app, IH. cbn. symmetry. apply repeat_cons.
Qed.

Lemma next_at_once (p : nat -> DataQueryResponse Data) :
  (forall r, limit r = false) ->
  forall (n : nat) (st : sched),
    (forall N, (1 <= N <= S n)%nat ->
       runQuery (subRequest N) = [NextN (p N); CompleteN]) ->
    closed st = false ->
    let firsts := map p (countdown (S n) n) in
    let final :=
      set_state Done
        (combineResponses (merged_after (mergedResponse st) firsts)
           (p 1%nat)) in
    next (S n) st
    = mkSched (Some final) (subscriptions st)
        (queries st ++ map subRequest (countdown (S n) (S n)))
        (emitted st
         ++ NextN final
            :: rev (map (fun m => NextN (set_state Streaming m))
                      (merges (mergedResponse st) firsts)))
        false.
Proof.
  intros Hlimit. induction n as [|m IH]; intros st Hnow Hclosed.
  - cbv zeta. rewrite next_eq, Hnow by lia. cbn [feed].
    rewrite on_value_unfold_done by (left; lia).
    unfold subscriber_next, set_merged, log_query. cbn.
    rewrite Hclosed. reflexivity.
  - cbv zeta. rewrite next_eq, Hnow by lia. cbn [feed].
    rewrite on_value_unfold_streaming by (try lia; apply Hlimit).
    replace (S (S m) - 1)%nat with (S m) by lia.
    rewrite IH; [|intros N HN; apply Hnow; lia|exact Hclosed].
    unfold subscriber_next, set_merged, log_query. cbn.
    rewrite Nat.sub_0_r, <- !app_assoc. cbn. reflexivity.
Qed.

(** X20.  Sub-queries whose observables answer at once, while they are
    subscribed to, with one value each, and complete; the limit is never
    reached.  Subscribing then issues the queries of all partitions,
    newest first, before anything is emitted; the responses come out in
    the reverse order of the merges, the last merge, marked [Done], first
    and the first merge last; no sub-query is left running and nothing can
    follow. *)
Theorem answers_at_once_reverse_order (p : nat -> DataQueryResponse Data) :
  (1 <= List.length partition)%nat ->
  (forall r, limit r = false) ->
  (forall N, (1 <= N <= List.length partition)%nat ->
     runQuery (subRequest N) = [NextN (p N); CompleteN]) ->
  let total := List.length partition in
  let firsts := map p (countdown total (total - 1)) in
  let final :=
    set_state Done (combineResponses (merged_after None firsts) (p 1%nat)) in
  queries subscribe = map subRequest (countdown total total)
  /\ subscriptions subscribe = []
  /\ emitted subscribe
     = NextN final
       :: rev (map (fun m => NextN (set_state Streaming m))
                 (merges None firsts))
  /\ marks (emitted subscribe)
     = Some Done :: repeat (Some Streaming) (total - 1)
  /\ mergedResponse subscribe = Some final
  /\ forall (evs : list event) (st' : sched),
       run subscribe evs = Some st' ->
       queries st' = queries subscribe
       /\ emitted st' = emitted subscribe.
Proof.
  intros Hpos Hlimit Hnow. cbv zeta.
  unfold Scheduler.subscribe, totalRequests.
  destruct (List.length partition) as [|n] eqn:Hlen; [lia|].
  rewrite (next_at_once p Hlimit n (mkSched None [] [] [] false) Hnow
             eq_refl).
  cbn [mergedResponse subscriptions queries emitted app].
  replace (S n - 1)%nat with n by lia.
  repeat (split; [reflexivity|]). split.
  - cbn [marks map state set_state]. f_equal.
    change (map _ ?l) with (marks (Err := Err) l).
    rewrite marks_rev_streaming, (merges_length combineResponses).
    rewrite length_map. clear. generalize (S n).
    induction n as [|m IH]; intros k; cbn; [reflexivity|].
    now rewrite IH.
  - split; [reflexivity|]. intros evs st' Hrun.
    apply (run_idle combineResponses resultLimitReached runQuery request
             partition) in Hrun; [|reflexivity].
    destruct Hrun as (_ & Hq & He). auto.
Qed.

(** X21.  A sub-query of the newest partition whose observable fails at
    once, while it is subscribed to: one query has been issued, nothing
    is emitted, no sub-query is running, and nothing can follow. *)
Theorem fails_at_once (e : Err)
    (rest : list (notification (DataQueryResponse Data) Err)) :
  runQuery (subRequest (List.length partition)) = ErrorN e :: rest ->
  subscribe
  = mkSched None [] [subRequest (List.length partition)] [] false
  /\ forall (evs : list event) (st' : sched),
       run subscribe evs = Some st' ->
       queries st' = [subRequest (List.length partition)]
       /\ emitted st' = [].
Proof.
  intros Hfail.
  assert (Hsub : subscribe
            = mkSched None [] [subRequest (List.length partition)] []
                false).
  { unfold Scheduler.subscribe, totalRequests.
    rewrite next_eq, Hfail. reflexivity. }
  split; [exact Hsub|]. rewrite Hsub. intros evs st' Hrun.
  apply (run_idle combineResponses resultLimitReached runQuery request
           partition) in Hrun; [|reflexivity].
  destruct Hrun as (_ & Hq & He). auto.
Qed.

End Runs.

Section Scenarios.

Import Scenario.

(** X19.  For a request with a range [from <= to] and a positive interval,
    [runPartitionedQuery] makes a partition that is not empty; each of its
    ranges has [from <= to], bounds that are multiples of the interval,
    spans less than one minute, and has [raw] equal to its bounds; and for
    times that are not negative the partition starts at or before the
    requested start and ends at or after the requested end. *)
Theorem runPartitionedQuery_partition {Extra : Type}
    (request : DataQueryRequest Extra) (tr : TimeRange) (fuel : nat) :
  range request = Some tr ->
  1 <= intervalMs request ->
  from tr <= to tr ->
  (Partitioner.getRanges_fuel (from tr) (to tr) (intervalMs request)
   <= fuel)%nat ->
  exists partition,
    runPartitionedQuery fuel request = Returns partition
    /\ partition <> []
    /\ (forall t, In t partition ->
          from t <= to t
          /\ to t - from t < 60000
          /\ Z.rem (from t) (intervalMs request) = 0
          /\ Z.rem (to t) (intervalMs request) = 0
          /\ raw t = (from t, to t))
    /\ (0 <= from tr ->
        exists first final,
          nth_error partition 0 = Some first
          /\ from first <= from tr
          /\ nth_error partition (List.length partition - 1) = Some final
          /\ to tr <= to final).
Proof.
  intros Hrange Hstep Hle Hfuel. unfold runPartitionedQuery.
  rewrite Hrange.
  destruct (PartitionerFacts.getRanges_returns fuel (from tr) (to tr)
              (intervalMs request) (60 * 1000) Hstep ltac:(lia) Hfuel)
    as (ranges & Hret).
  rewrite Hret.
  destruct (PartitionerMore.getRanges_ranges _ _ _ _ _ _ Hstep Hret)
    as (lo & hi & Hexp & _ & _ & _ & Heach & Hfirst & Hfinal & Hempty & _).
  pose proof (PartitionerFacts.expandTimeRange_ordered _ _ _ _ _
                Hstep Hle Hexp) as Hord.
  assert (Hne : ranges <> []) by (intros Hnil; apply Hempty in Hnil; lia).
  eexists. split; [reflexivity|].
  split; [destruct ranges; [congruence|discriminate]|]. split.
  - intros t Ht. apply in_map_iff in Ht. destruct Ht as ([a b] & <- & Hr).
    apply In_nth_error in Hr. destruct Hr as (i & Hr).
    destruct (Heach i _ Hr) as (Hb & Ha & Hb' & Hspan & _).
    pose proof (PartitionerMore.pointsInChunk_span (60 * 1000)
                  (intervalMs request) Hstep ltac:(lia)).
    cbn [fst snd] in *. cbn [toTimeRange from to raw].
    repeat split; try lia; apply Z.rem_divide; auto; lia.
  - intros Hpos.
    rewrite PartitionerMore.expandTimeRange_value in Hexp by lia.
    injection Hexp as Hlo Hhi.
    pose proof (Z.rem_bound_pos (from tr) (intervalMs request)
                  ltac:(lia) ltac:(lia)).
    pose proof (Z.rem_bound_pos (to tr) (intervalMs request)
                  ltac:(lia) ltac:(lia)).
    assert (Hhi' : to tr <= hi).
    { rewrite <- Hhi.
      destruct (Z.eqb_spec (Z.rem (to tr) (intervalMs request)) 0);
        cbn [negb]; lia. }
    rewrite length_map, !nth_error_map.
    destruct (nth_error ranges 0) as [first|] eqn:Hf;
      [|apply nth_error_None in Hf; destruct ranges;
        [congruence|cbn in Hf; lia]].
    destruct (nth_error ranges (List.length ranges - 1)) as [final|] eqn:Hl;
      [|apply nth_error_None in Hl; destruct ranges;
        [congruence|cbn in Hl; lia]].
    specialize (Hfirst _ eq_refl). specialize (Hfinal _ Hord eq_refl).
    exists (toTimeRange first), (toTimeRange final).
    destruct first as [a b], final as [c d]. cbn in *.
    repeat split; lia.
Qed.

Lemma runPartitionedQuery_partition_witness :
  exists partition,
    runPartitionedQuery 9 request = Returns partition
    /\ partition <> []
    /\ (forall t, In t partition ->
          from t <= to t
          /\ to t - from t < 60000
          /\ Z.rem (from t) (intervalMs request) = 0
          /\ Z.rem (to t) (intervalMs request) = 0
          /\ raw t = (from t, to t))
    /\ (0 <= from (mkTimeRange (t0 + 3000) (t0 + 63000)
                               (t0 + 3000, t0 + 63000)) ->
        exists first final,
          nth_error partition 0 = Some first
          /\ from first
             <= from (mkTimeRange (t0 + 3000) (t0 + 63000)
                                  (t0 + 3000, t0 + 63000))
          /\ nth_error partition (List.length partition - 1) = Some final
          /\ to (mkTimeRange (t0 + 3000) (t0 + 63000)
                             (t0 + 3000, t0 + 63000))
             <= to final).
Proof.
  apply (runPartitionedQuery_partition request
           (mkTimeRange (t0 + 3000) (t0 + 63000) (t0 + 3000, t0 + 63000)) 9);
    [reflexivity|vm_compute; discriminate|vm_compute; discriminate|].
  vm_compute. lia.
Defined.

Lemma empty_partition_one_query_witness :
  queries (subscribe combineSamples noLimit later request []
           : @sched (list nat) unit string)
  = [mkRequest (requestId request ++ "_0") None (intervalMs request)
               (others request)]
  /\ (exists st : @sched (list nat) unit string,
        run combineSamples noLimit later request []
            (subscribe combineSamples noLimit later request [])
            (answers 0 [sample 1]) = Some st
        /\ queries st
           = queries (subscribe combineSamples noLimit later request []
                      : @sched (list nat) unit string)
        /\ emitted st
           = [NextN (set_state Done (combineSamples None (sample 1)))]
        /\ marks (emitted st) = [Some Done]
        /\ forall evs st',
             run combineSamples noLimit later request [] st evs = Some st' ->
             queries st' = queries st /\ emitted st' = emitted st)
  /\ emitted (subscribe combineSamples noLimit atOnce request [])
     = [NextN (set_state Done (combineSamples None (sample 1)))].
Proof.
  split; [|split].
  - apply (empty_partition_one_query (Err := string) combineSamples noLimit
             later request [] (sample 1)).
    reflexivity.
  - destruct (empty_partition_one_query (Err := string) combineSamples
                noLimit later request [] (sample 1) eq_refl)
      as (_ & H & _).
    apply H. reflexivity.
  - destruct (empty_partition_one_query (Err := string) combineSamples
                noLimit atOnce request [] (sample 1) eq_refl)
      as (_ & _ & H).
    apply H. reflexivity.
Defined.

Lemma run_until_limit_witness :
  exists st : @sched (list nat) unit string,
    run combineSamples (samplesReached 3) later requestOfFive
        partitionOfFive
        (subscribe combineSamples (samplesReached 3) later requestOfFive
           partitionOfFive)
        (answers (List.length partitionOfFive)
                 ([sample 5; sample 4] ++ [sample 3])) = Some st
    /\ queries st
       = map (subRequest requestOfFive partitionOfFive)
           (countdown (List.length partitionOfFive)
                      (List.length [sample 5; sample 4] + 1))
    /\ emitted st
       = map (fun m => NextN (set_state Streaming m))
             (merges combineSamples None [sample 5; sample 4])
         ++ [NextN (set_state Done
                      (combineSamples
                         (merged_after combineSamples None
                            [sample 5; sample 4]) (sample 3)))]
    /\ marks (emitted st)
       = repeat (Some Streaming) (List.length [sample 5; sample 4])
         ++ [Some Done]
    /\ mergedResponse st
       = Some (set_state Done
                 (combineSamples
                    (merged_after combineSamples None [sample 5; sample 4])
                    (sample 3)))
    /\ forall evs st',
         run combineSamples (samplesReached 3) later requestOfFive
             partitionOfFive st evs = Some st' ->
         queries st' = queries st /\ emitted st' = emitted st.
Proof.
  apply (run_until_limit (Err := string) combineSamples (samplesReached 3)
           later requestOfFive partitionOfFive [sample 5; sample 4]
           (sample 3)).
  - reflexivity.
  - cbn. lia.
  - repeat constructor.
  - left. reflexivity.
Defined.

Lemma emitted_streaming_or_done_witness :
  (forall n,
     In n (emitted
             (subscribe (Err := string) combineSamples noLimit atOnce
                requestOfThree partitionOfThree)) ->
     exists r, n = NextN r /\ (state r = Streaming \/ state r = Done))
  /\ (forall r,
        mergedResponse
          (subscribe (Err := string) combineSamples noLimit atOnce
             requestOfThree partitionOfThree) = Some r ->
        state r = Streaming \/ state r = Done).
Proof.
  apply (emitted_streaming_or_done combineSamples noLimit atOnce
           requestOfThree partitionOfThree []).
  reflexivity.
Defined.

Lemma one_emission_per_value_witness :
  List.length
    (emitted (on_value (Err := string) combineSamples noLimit later
                requestOfThree partitionOfThree 3 (sample 3)
                (subscribe combineSamples noLimit later requestOfThree
                   partitionOfThree)))
  = (List.length
       (emitted (subscribe combineSamples noLimit later requestOfThree
                   partitionOfThree : @sched (list nat) unit string))
     + List.length
         (filter brings_value
            [Deliver (Err := string) 3 (NextN (sample 3))]))%nat
  /\ (List.length
        (queries (on_value (Err := string) combineSamples noLimit later
                    requestOfThree partitionOfThree 3 (sample 3)
                    (subscribe combineSamples noLimit later requestOfThree
                       partitionOfThree)))
      <= List.length
           (queries (subscribe combineSamples noLimit later requestOfThree
                       partitionOfThree : @sched (list nat) unit string))
         + List.length
             (filter brings_value
                [Deliver (Err := string) 3 (NextN (sample 3))]))%nat.
Proof.
  apply (one_emission_per_value combineSamples noLimit later requestOfThree
           partitionOfThree [Deliver 3 (NextN (sample 3))]).
  - reflexivity.
  - reflexivity.
  - repeat constructor. discriminate.
  - reflexivity.
Defined.

Lemma two_values_two_queries_witness :
  exists st' : @sched (list nat) unit string,
    run combineSamples noLimit later requestOfThree partitionOfThree
        (subscribe combineSamples noLimit later requestOfThree
           partitionOfThree)
        [Deliver 3 (NextN (sample 3)); Deliver 3 (NextN (sample 4))]
    = Some st'
    /\ queries st'
       = queries (subscribe combineSamples noLimit later requestOfThree
                    partitionOfThree : @sched (list nat) unit string)
         ++ [subRequest requestOfThree partitionOfThree (3 - 1);
             subRequest requestOfThree partitionOfThree (3 - 1)].
Proof.
  apply (two_values_two_queries (Err := string) combineSamples noLimit
           later requestOfThree partitionOfThree
           (subscribe combineSamples noLimit later requestOfThree
              partitionOfThree) 3 (sample 3) (sample 4));
    try reflexivity.
  lia.
Defined.

Lemma answers_at_once_reverse_order_witness :
  queries (subscribe combineSamples noLimit atOnce requestOfThree
             partitionOfThree)
  = map (subRequest requestOfThree partitionOfThree) [3; 2; 1]%nat
  /\ emitted (subscribe combineSamples noLimit atOnce requestOfThree
                partitionOfThree)
     = [NextN (mkResponse [1; 1; 1]%nat Done);
        NextN (mkResponse [1; 1]%nat Streaming);
        NextN (mkResponse [1]%nat Streaming)].
Proof.
  destruct (answers_at_once_reverse_order (Err := string) combineSamples
              noLimit atOnce requestOfThree partitionOfThree
              (fun _ => sample 1))
    as (Hq & _ & He & _);
    [cbn; lia|reflexivity|reflexivity|].
  split; [exact Hq|exact He].
Defined.

Lemma fails_at_once_witness :
  subscribe combineSamples noLimit failing requestOfThree partitionOfThree
  = mkSched None [] [subRequest requestOfThree partitionOfThree 3] [] false
  /\ forall evs st',
       run combineSamples noLimit failing requestOfThree partitionOfThree
           (subscribe combineSamples noLimit failing requestOfThree
              partitionOfThree) evs = Some st' ->
       queries st' = [subRequest requestOfThree partitionOfThree 3]
       /\ emitted st' = [].
Proof.
  apply (fails_at_once (Err := string) combineSamples noLimit failing
           requestOfThree partitionOfThree "timeout"%string []).
  reflexivity.
Defined.

End Scenarios.

End SchedulerMore.
